(** * The LSF driver of ert's scheduler

    A shallow embedding of [src/ert/scheduler/lsf_driver.py]: the parser of
    [bjobs] output, the pydantic model [_Stat] that validates what the parser
    returns, and the three operations of [LsfDriver] ([submit], [kill] and
    one iteration of the loop of [poll]).

    Conventions.
    - A Python [str] is a [string]; its characters are read as the code
      points below 256.  The character classes below are those of
      [str.isdigit], [str.isspace] and [str.splitlines] on that range.
    - A subprocess is a value of [Completed]: what [communicate] returned,
      already decoded.
    - The methods mutate the driver in place and may raise.  An operation
      therefore returns the state it leaves behind together with the
      exception it raised, if any. *)

From Stdlib Require Import ZArith NArith Ascii String.
From stdpp Require Import base option list gmap strings.

(** ** Text *)

Module Text.

Definition ord (c : ascii) : N := N_of_ascii c.

Definition between (lo hi n : N) : bool := (lo <=? n)%N && (n <=? hi)%N.

(** [str.isdigit]: the decimal digits and the superscripts two, three, one. *)
Definition isdigit (c : ascii) : bool :=
  between 48 57 (ord c) || (ord c =? 178)%N || (ord c =? 179)%N
  || (ord c =? 185)%N.

(** [str.isspace]. *)
Definition isspace (c : ascii) : bool :=
  between 9 13 (ord c) || between 28 31 (ord c) || (ord c =? 32)%N
  || (ord c =? 133)%N || (ord c =? 160)%N.

(** The line boundaries of [str.splitlines]. *)
Definition is_linebreak (c : ascii) : bool :=
  between 10 13 (ord c) || between 28 30 (ord c) || (ord c =? 133)%N.

(** The class [[0-9]] of [re]. *)
Definition is_ascii_digit (c : ascii) : bool := between 48 57 (ord c).

Definition CR : ascii := "013"%char.
Definition LF : ascii := "010"%char.

(** [cur] is the line read so far. A carriage return followed by a line
    feed is one boundary; a last line that is empty is not returned. *)
Fixpoint splitlines_from (cur s : string) : list string :=
  match s with
  | EmptyString => if decide (cur = EmptyString) then [] else [cur]
  | String c s' =>
      if is_linebreak c then
        cur ::
          match s' with
          | String c' s'' =>
              if decide (c = CR /\ c' = LF) then splitlines_from "" s''
              else splitlines_from "" s'
          | EmptyString => []
          end
      else splitlines_from (cur +:+ String c "") s'
  end.

Definition splitlines (s : string) : list string := splitlines_from "" s.

Fixpoint lstrip (s : string) : string :=
  match s with
  | String c s' => if isspace c then lstrip s' else s
  | EmptyString => EmptyString
  end.

(** The longest prefix without whitespace, and what follows it. *)
Fixpoint break_ws (s : string) : string * string :=
  match s with
  | String c s' =>
      if isspace c then (EmptyString, s)
      else let '(tok, rest) := break_ws s' in (String c tok, rest)
  | EmptyString => (EmptyString, EmptyString)
  end.

(** [s.split(maxsplit=n)] with no separator: at most [n] splits at runs of
    whitespace, the remainder (without its leading whitespace) being the
    last token when it is not empty. *)
Fixpoint split (maxsplit : nat) (s : string) : list string :=
  let s1 := lstrip s in
  if decide (s1 = EmptyString) then []
  else
    match maxsplit with
    | O => [s1]
    | S n => let '(tok, rest) := break_ws s1 in tok :: split n rest
    end.



Fixpoint is_prefix (p s : string) : bool :=
  match p, s with
  | EmptyString, _ => true
  | String a p', String b s' => bool_decide (a = b) && is_prefix p' s'
  | String _ _, EmptyString => false
  end.

Fixpoint strip_prefix (p s : string) : option string :=
  match p, s with
  | EmptyString, _ => Some s
  | String a p', String b s' =>
      if decide (a = b) then strip_prefix p' s' else None
  | String _ _, EmptyString => None
  end.

(** The longest prefix of characters satisfying [f], and what follows. *)
Fixpoint span (f : ascii -> bool) (s : string) : string * string :=
  match s with
  | String c s' =>
      if f c then let '(a, b) := span f s' in (String c a, b)
      else (EmptyString, s)
  | EmptyString => (EmptyString, EmptyString)
  end.

Definition all_chars (f : ascii -> bool) (s : string) : Prop :=
  Forall (fun c => f c = true) (list_ascii_of_string s).

End Text.

(** ** Python dictionaries

    A [dict] keeps its keys in the order of their first insertion; setting a
    key that is present replaces its value in place. *)

Module PyDict.
Section dict.
Context {K V : Type} `{EqDecision K}.

Fixpoint get (k : K) (d : list (K * V)) : option V :=
  match d with
  | [] => None
  | (k', v) :: d' => if decide (k = k') then Some v else get k d'
  end.

Fixpoint set (k : K) (v : V) (d : list (K * V)) : list (K * V) :=
  match d with
  | [] => [(k, v)]
  | (k', v') :: d' =>
      if decide (k = k') then (k, v) :: d' else (k', v') :: set k v d'
  end.

Definition keys (d : list (K * V)) : list K := d.*1.
End dict.
End PyDict.

(** ** The regular expressions of the driver *)

Module Re.
Import Text.

(** [.+p], anchored: one character or more, none of them a line feed,
    then [p]. *)
Fixpoint dot_plus_then (p s : string) : bool :=
  match s with
  | EmptyString => false
  | String c s' =>
      negb (bool_decide (c = LF)) && (is_prefix p s' || dot_plus_then p s')
  end.

(** [Job <([0-9]+)> is submitted to .+ queue] matched at the start of [s];
    the result is group 1. A run of digits has to be followed by [>], so
    only the longest run can match. *)
Definition match_submitted (s : string) : option string :=
  s1 ← strip_prefix "Job <" s;
  let '(digits, s2) := span is_ascii_digit s1 in
  if decide (digits = EmptyString) then None
  else
    s3 ← strip_prefix "> is submitted to " s2;
    if dot_plus_then " queue" s3 then Some digits else None.

(** [re.search]: the match that starts leftmost. *)
Fixpoint search_submitted (s : string) : option string :=
  match match_submitted s with
  | Some job_id => Some job_id
  | None =>
      match s with
      | String _ s' => search_submitted s'
      | EmptyString => None
      end
  end.

(** [re.match(f"Job <{job_id}> is being terminated", s)]. The identifiers
    the driver holds are runs of digits (they are group 1 above), which a
    pattern reads literally. *)
Definition match_terminated (job_id s : string) : bool :=
  is_prefix ("Job <" +:+ job_id +:+ "> is being terminated") s.

End Re.

(** ** Job states and the model [_Stat] *)

Inductive JobState :=
  EXIT | DONE | PEND | RUN | ZOMBI | PDONE | SSUSP | USUSP | UNKWN.

#[global] Instance JobState_eq_dec : EqDecision JobState.
Proof. solve_decision. Defined.

(** [get_args(JobState)] *)
Definition JobState_args : list string :=
  ["EXIT"; "DONE"; "PEND"; "RUN"; "ZOMBI"; "PDONE"; "SSUSP"; "USUSP";
   "UNKWN"]%string.

(** [Literal["DONE", "EXIT"]] *)
Inductive FinishedState := Finished_DONE | Finished_EXIT.

Inductive AnyJob :=
  | FinishedJob (state : FinishedState)
  | QueuedJob
  | RunningJob.

Definition job_state (job : AnyJob) : JobState :=
  match job with
  | FinishedJob Finished_DONE => DONE
  | FinishedJob Finished_EXIT => EXIT
  | QueuedJob => PEND
  | RunningJob => RUN
  end.

Definition LSF_INFO_JSON_FILENAME : string := "lsf_info.json".

(** ** Logging, exceptions, events *)

Inductive Level := DEBUG | INFO | WARNING | ERROR.

(** One constructor per logging call of the module, with the values its
    message is formatted from. *)
Inductive LogMsg :=
  | UnknownState (state jobid : string)
  | Submitting (bsub_with_args : list string)
  | BsubFailed (bsub_with_args : list string) (returncode : Z) (err : string)
  | Accepted (iens : Z) (job_id : string)
  | KillMissingJobid (iens : Z)
  | Killing (iens : Z) (job_id : string)
  | KillReturncode (returncode : Z) (err : string)
  | KillStdout (out err : string)
  | BjobsReturncode (returncode : Z) (err : string)
  | IsRunning (iens : Z)
  | RealizationFailed (iens : Z) (job_id : string)
  | RealizationSucceeded (iens : Z) (job_id : string)
  | MissingInBjobs (job_ids : gset string).

Record LogRecord := Log { level : Level; message : LogMsg }.

Inductive Exn :=
  | RuntimeError (msg : string)
  | ValidationError
  | KeyError (iens : Z)
  | UnicodeDecodeError.

(** Modelled from the spec: [ert.scheduler.event] is not among the sources;
    section 3 gives the events as the tagged variant [Started{iens}],
    [Finished{iens, returncode, aborted}]. *)
Inductive Event :=
  | StartedEvent (iens : Z)
  | FinishedEvent (iens : Z) (returncode : Z) (aborted : bool).

Definition event_iens (e : Event) : Z :=
  match e with
  | StartedEvent iens => iens
  | FinishedEvent iens _ _ => iens
  end.

(** ** [parse_bjobs] *)

(** What the body of the loop does with one line. *)
Inductive LineResult :=
  | Skipped
  | Ignored (state jobid : string)
  | Entry (jobid state : string).

Definition truthy (s : string) : bool := negb (bool_decide (s = EmptyString)).

Definition parse_line (line : string) : LineResult :=
  match line with
  | EmptyString => Skipped
  | String c _ =>
      if negb (Text.isdigit c) then Skipped
      else
        match Text.split 3 line with
        | t0 :: _ :: t2 :: _ =>
            if truthy t0 && truthy t2 then
              if bool_decide (t2 ∈ JobState_args) then Entry t0 t2
              else Ignored t2 t0
            else Skipped
        | _ => Skipped
        end
  end.

(** The dictionary [{"job_state": state}] is represented by [state], and
    [{"jobs": data}] by [data]; the records logged on the way come first. *)
Definition parse_step (acc : list LogRecord * list (string * string))
    (line : string) : list LogRecord * list (string * string) :=
  match parse_line line with
  | Skipped => acc
  | Ignored state jobid => (acc.1 ++ [Log ERROR (UnknownState state jobid)], acc.2)
  | Entry jobid state => (acc.1, PyDict.set jobid state acc.2)
  end.

Definition parse_bjobs (bjobs_output : string)
    : list LogRecord * list (string * string) :=
  foldl parse_step ([], []) (Text.splitlines bjobs_output).

(** Validation of one value of [jobs] against the union [AnyJob], which is
    discriminated by [job_state]. *)
Definition validate_AnyJob (state : string) : option AnyJob :=
  if decide (state = "DONE"%string) then Some (FinishedJob Finished_DONE)
  else if decide (state = "EXIT"%string) then Some (FinishedJob Finished_EXIT)
  else if decide (state = "PEND"%string) then Some QueuedJob
  else if decide (state = "RUN"%string) then Some RunningJob
  else None.

(** The constructor of [_Stat], applied to what [parse_bjobs] returns:
    every value has to validate. *)
Definition _Stat (jobs : list (string * string))
    : Exn + list (string * AnyJob) :=
  match mapM (fun kv => pair kv.1 <$> validate_AnyJob kv.2) jobs with
  | Some stat => inr stat
  | None => inl ValidationError
  end.

(** ** The driver *)

(** What [communicate] returned, with the two streams decoded as the
    driver decodes them. *)
Record Completed := {
  returncode : Z;
  stdout : string;          (* [stdout.decode(errors="ignore")] *)
  stderr : string;          (* [stderr.decode(errors="ignore")] *)
  stderr_is_utf8 : bool     (* whether the strict [stderr.decode()] succeeds;
                               it then returns [stderr] *)
}.

(** The attributes of an [LsfDriver], followed by the two things outside of
    it that its methods write to: the records of the module's logger and the
    files, named by their directory and file name. *)
Record LsfDriver := {
  _queue_name : option string;
  _bsub_cmd : string;
  _bjobs_cmd : string;
  _bkill_cmd : string;
  _jobs : gmap string (Z * JobState);
  _iens2jobid : gmap Z string;
  event_queue : list Event;
  logged : list LogRecord;
  files : gmap (string * string) string
}.

Definition set_jobs (self : LsfDriver) (jobs : gmap string (Z * JobState))
    : LsfDriver :=
  {| _queue_name := _queue_name self; _bsub_cmd := _bsub_cmd self;
     _bjobs_cmd := _bjobs_cmd self; _bkill_cmd := _bkill_cmd self;
     _jobs := jobs; _iens2jobid := _iens2jobid self;
     event_queue := event_queue self; logged := logged self;
     files := files self |}.

Definition set_iens2jobid (self : LsfDriver) (m : gmap Z string) : LsfDriver :=
  {| _queue_name := _queue_name self; _bsub_cmd := _bsub_cmd self;
     _bjobs_cmd := _bjobs_cmd self; _bkill_cmd := _bkill_cmd self;
     _jobs := _jobs self; _iens2jobid := m;
     event_queue := event_queue self; logged := logged self;
     files := files self |}.

(** [event_queue.put]: the queue has no bound. *)
Definition put (self : LsfDriver) (event : Event) : LsfDriver :=
  {| _queue_name := _queue_name self; _bsub_cmd := _bsub_cmd self;
     _bjobs_cmd := _bjobs_cmd self; _bkill_cmd := _bkill_cmd self;
     _jobs := _jobs self; _iens2jobid := _iens2jobid self;
     event_queue := event_queue self ++ [event]; logged := logged self;
     files := files self |}.

Definition add_logs (self : LsfDriver) (records : list LogRecord) : LsfDriver :=
  {| _queue_name := _queue_name self; _bsub_cmd := _bsub_cmd self;
     _bjobs_cmd := _bjobs_cmd self; _bkill_cmd := _bkill_cmd self;
     _jobs := _jobs self; _iens2jobid := _iens2jobid self;
     event_queue := event_queue self; logged := logged self ++ records;
     files := files self |}.

Definition add_log (self : LsfDriver) (lvl : Level) (msg : LogMsg) : LsfDriver :=
  add_logs self [Log lvl msg].

Definition write_text (self : LsfDriver) (dir name content : string)
    : LsfDriver :=
  {| _queue_name := _queue_name self; _bsub_cmd := _bsub_cmd self;
     _bjobs_cmd := _bjobs_cmd self; _bkill_cmd := _bkill_cmd self;
     _jobs := _jobs self; _iens2jobid := _iens2jobid self;
     event_queue := event_queue self; logged := logged self;
     files := <[(dir, name) := content]> (files self) |}.

(** [a or b] on optional strings: [None] and the empty string are false. *)
Definition str_or (a : option string) (b : string) : string :=
  match a with
  | Some s => if truthy s then s else b
  | None => b
  end.

(** [__init__]; [which] stands for [shutil.which], and the logger and the
    files are those the driver finds. *)
Definition init (queue_name bsub_cmd bjobs_cmd bkill_cmd : option string)
    (which : string -> option string)
    (records : list LogRecord) (fs : gmap (string * string) string)
    : LsfDriver :=
  {| _queue_name := queue_name;
     _bsub_cmd := str_or bsub_cmd (str_or (which "bsub"%string) "bsub");
     _bjobs_cmd := str_or bjobs_cmd (str_or (which "bjobs"%string) "bjobs");
     _bkill_cmd := str_or bkill_cmd (str_or (which "bkill"%string) "bkill");
     _jobs := ∅; _iens2jobid := ∅; event_queue := [];
     logged := records; files := fs |}.

Definition DQ : ascii := "034"%char.
Definition quoted (s : string) : string := String DQ (s +:+ String DQ "").

(** [json.dumps] of the dictionary with the one key [job_id]; the value is
    a run of digits, in which nothing is escaped. *)
Definition json_dumps_job_id (job_id : string) : string :=
  "{" +:+ quoted "job_id" +:+ ": " +:+ quoted job_id +:+ "}".

Definition submit (self : LsfDriver) (iens : Z) (executable : string)
    (args : list string) (name : string) (runpath : option string)
    (process : Completed) : LsfDriver * option Exn :=
  let arg_queue_name :=
    match _queue_name self with
    | Some q => if truthy q then ["-q"%string; q] else []
    | None => []
    end in
  let bsub_with_args :=
    [_bsub_cmd self] ++ arg_queue_name ++ ["-J"%string; name; executable] ++ args in
  let self := add_log self DEBUG (Submitting bsub_with_args) in
  if decide (returncode process ≠ 0%Z) then
    (add_log self ERROR
       (BsubFailed bsub_with_args (returncode process)
          (if truthy (stderr process) then stderr process else "<empty>")),
     Some (RuntimeError (stderr process)))
  else
    let stdout_decoded := stdout process in
    match Re.search_submitted stdout_decoded with
    | None =>
        (self,
         Some (RuntimeError
                 ("Could not understand '" +:+ stdout_decoded +:+ "' from bsub")))
    | Some job_id =>
        let self := add_log self INFO (Accepted iens job_id) in
        let self :=
          match runpath with
          | Some dir =>
              write_text self dir LSF_INFO_JSON_FILENAME
                (json_dumps_job_id job_id)
          | None => self
          end in
        let self := set_jobs self (<[job_id := (iens, PEND)]> (_jobs self)) in
        let self := set_iens2jobid self (<[iens := job_id]> (_iens2jobid self)) in
        (self, None)
    end.

(** [process] is what [bkill] returned; it is not run when the realization
    has no job identifier. *)
Definition kill (self : LsfDriver) (iens : Z) (process : Completed)
    : LsfDriver * option Exn :=
  match _iens2jobid self !! iens with
  | None => (add_log self ERROR (KillMissingJobid iens), None)
  | Some job_id =>
      let self := add_log self DEBUG (Killing iens job_id) in
      if decide (returncode process ≠ 0%Z) then
        (add_log self ERROR
           (KillReturncode (returncode process) (stderr process)), None)
      else if negb (Re.match_terminated job_id (stdout process)) then
        (add_log self ERROR (KillStdout (stdout process) (stderr process)),
         None)
      else (self, None)
  end.

(** The body of the loop over [stat.jobs.items()]. *)
Definition poll_job (self : LsfDriver) (job_id : string) (job : AnyJob)
    : LsfDriver * option Exn :=
  match _jobs self !! job_id with
  | None => (self, None)
  | Some (iens, old_state) =>
      let new_state := job_state job in
      if decide (old_state = new_state) then (self, None)
      else
        let self := set_jobs self (<[job_id := (iens, new_state)]> (_jobs self)) in
        match job with
        | RunningJob =>
            let self := add_log self DEBUG (IsRunning iens) in
            (put self (StartedEvent iens), None)
        | FinishedJob _ =>
            let aborted := bool_decide (job_state job = EXIT) in
            let event :=
              FinishedEvent iens
                (if bool_decide (job_state job = EXIT) then 1%Z else 0%Z) aborted in
            match _iens2jobid self !! iens with
            | None => (self, Some (KeyError iens))
            | Some lsf_id =>
                let self :=
                  if aborted then
                    add_log self WARNING (RealizationFailed iens lsf_id)
                  else add_log self INFO (RealizationSucceeded iens lsf_id) in
                let self := set_jobs self (delete job_id (_jobs self)) in
                let self :=
                  set_iens2jobid self (delete iens (_iens2jobid self)) in
                (put self event, None)
            end
        | QueuedJob => (self, None)
        end
  end.

Fixpoint poll_jobs (self : LsfDriver) (items : list (string * AnyJob))
    : LsfDriver * option Exn :=
  match items with
  | [] => (self, None)
  | (job_id, job) :: items' =>
      match poll_job self job_id job with
      | (self', None) => poll_jobs self' items'
      | raised => raised
      end
  end.

(** The loop, then the warning about the identifiers [bjobs] was silent
    about. *)
Definition poll_stat (self : LsfDriver) (stat : list (string * AnyJob))
    : LsfDriver * option Exn :=
  match poll_jobs self stat with
  | (self', None) =>
      let missing_in_bjobs_output : gset string :=
        dom (_jobs self') ∖ list_to_set (PyDict.keys stat) in
      if decide (missing_in_bjobs_output ≠ ∅) then
        (add_log self' WARNING (MissingInBjobs missing_in_bjobs_output), None)
      else (self', None)
  | raised => raised
  end.

(** One iteration of [while True] in [poll]; [process] is what [bjobs]
    returned, and it is not run while no job is tracked. *)
Definition poll_cycle (self : LsfDriver) (process : Completed)
    : LsfDriver * option Exn :=
  if decide (_jobs self = ∅) then (self, None)
  else if decide (returncode process ≠ 0%Z /\ stderr_is_utf8 process = false)
  then (self, Some UnicodeDecodeError)
  else
    let self :=
      if decide (returncode process ≠ 0%Z) then
        add_log self WARNING
          (BjobsReturncode (returncode process) (stderr process))
      else self in
    let '(records, jobs) := parse_bjobs (stdout process) in
    let self := add_logs self records in
    match _Stat jobs with
    | inl e => (self, Some e)
    | inr stat => poll_stat self stat
    end.

(** ** Runs of the driver *)

Inductive Op :=
  | Submit (iens : Z) (executable : string) (args : list string)
      (name : string) (runpath : option string) (bsub : Completed)
  | Kill (iens : Z) (bkill : Completed)
  | Poll (bjobs : Completed).

Definition step (self : LsfDriver) (op : Op) : LsfDriver * option Exn :=
  match op with
  | Submit iens executable args name runpath bsub =>
      submit self iens executable args name runpath bsub
  | Kill iens bkill => kill self iens bkill
  | Poll bjobs => poll_cycle self bjobs
  end.

(** The state after a sequence of calls; a call that raises leaves the
    driver as it was when the exception left it. *)
Definition run (self : LsfDriver) (ops : list Op) : LsfDriver :=
  foldl (fun s op => (step s op).1) self ops.

(** ** The notions the properties are stated with *)

(** The events put on the queue between two states of the driver. *)
Definition emitted (before after : LsfDriver) : list Event :=
  drop (length (event_queue before)) (event_queue after).

(** A map from job identifiers to realizations and their states and a map
    from realizations to job identifiers are inverse to each other. *)
Definition inverse_maps (jobs : gmap string (Z * JobState))
    (iens2jobid : gmap Z string) : Prop :=
  ∀ job_id iens,
    (∃ state, jobs !! job_id = Some (iens, state))
    ↔ iens2jobid !! iens = Some job_id.

(** The two maps of the driver are inverse to each other. *)
Definition mutually_inverse (self : LsfDriver) : Prop :=
  inverse_maps (_jobs self) (_iens2jobid self).

Definition not_LF (c : ascii) : bool := negb (bool_decide (c = Text.LF)).

(** What the pattern of [submit] denotes: [s] is the text
    [Job <N> is submitted to M queue] followed by anything, where [N] is a
    run of one digit or more and [M] one character or more of one line. *)
Definition submitted_at (s job_id : string) : Prop :=
  ∃ mid suf,
    s = "Job <" +:+ job_id +:+ "> is submitted to " +:+ mid +:+ " queue" +:+ suf
    ∧ job_id ≠ EmptyString ∧ Text.all_chars Text.is_ascii_digit job_id
    ∧ mid ≠ EmptyString ∧ Text.all_chars not_LF mid.

(** The pattern matches somewhere in [s], with [job_id] between the angle
    brackets. *)
Definition submitted_in (s job_id : string) : Prop :=
  ∃ pre rest, s = pre +:+ rest ∧ submitted_at rest job_id.



(** The event a reported job calls for, given the states known before: the
    one of its new state when that differs from the known one. *)
Definition transition_event (jobs : gmap string (Z * JobState))
    (item : string * AnyJob) : option Event :=
  match jobs !! item.1 with
  | None => None
  | Some (iens, old_state) =>
      if decide (old_state = job_state item.2) then None
      else
        match job_state item.2 with
        | RUN => Some (StartedEvent iens)
        | DONE => Some (FinishedEvent iens 0 false)
        | EXIT => Some (FinishedEvent iens 1 true)
        | _ => None
        end
  end.

(** [kill] was called for the realization. *)
Definition kill_requested (ops : list Op) (iens : Z) : Prop :=
  ∃ bkill, Kill iens bkill ∈ ops.

(** Every [submit] of the run is for a realization that has no tracked
    attempt at that time. *)
Fixpoint one_attempt_at_a_time (self : LsfDriver) (ops : list Op) : Prop :=
  match ops with
  | [] => True
  | op :: ops' =>
      match op with
      | Submit iens _ _ _ _ _ => _iens2jobid self !! iens = None
      | _ => True
      end
      ∧ one_attempt_at_a_time (step self op).1 ops'
  end.

(** No [bsub] of the run hands out an identifier that is tracked at that
    time. *)
Fixpoint fresh_identifiers (self : LsfDriver) (ops : list Op) : Prop :=
  match ops with
  | [] => True
  | op :: ops' =>
      match op with
      | Submit _ _ _ _ _ bsub =>
          ∀ job_id, Re.search_submitted (stdout bsub) = Some job_id →
                    _jobs self !! job_id = None
      | _ => True
      end
      ∧ fresh_identifiers (step self op).1 ops'
  end.

Definition is_submit (op : Op) : bool :=
  match op with Submit _ _ _ _ _ _ => true | _ => false end.

(** The bookkeeping of the driver is the same in both states: the two
    maps, the queue of events and the files. *)
Definition same_bookkeeping (self self' : LsfDriver) : Prop :=
  _jobs self' = _jobs self ∧ _iens2jobid self' = _iens2jobid self
  ∧ event_queue self' = event_queue self ∧ files self' = files self.

(** ** Concrete runs *)

Module Scenario.

Definition newline : string := String Text.LF "".

(** A driver as [LsfDriver()] builds it, with nothing logged and no file. *)
Definition fresh : LsfDriver :=
  init None None None None (fun _ => None) [] ∅.

(** A process that exits with 0 and writes [out]. *)
Definition exits_0 (out : string) : Completed :=
  {| returncode := 0; stdout := out; stderr := ""; stderr_is_utf8 := true |}.

Definition accepted_as_1 : Completed :=
  exits_0 "Job <1> is submitted to default queue".

Definition submit_0 : Op := Submit 0 "job.sh" [] "dummy" None accepted_as_1.
Definition submit_1 : Op := Submit 1 "job.sh" [] "dummy" None accepted_as_1.

(** Realization 0 is tracked as job 1, pending. *)
Definition tracking_1 : LsfDriver := run fresh [submit_0].

(** Realization 0 is tracked as job 1, running. *)
Definition running_1 : LsfDriver :=
  run fresh [submit_0; Poll (exits_0 "1 user RUN normal")].


End Scenario.

(** ** Further notions *)

(** The states the three classes of [AnyJob] declare. *)
Definition AnyJob_states : list string := ["DONE"; "EXIT"; "PEND"; "RUN"]%string.



(** [submit] was called for the realization. *)
Definition submit_requested (ops : list Op) (iens : Z) : Prop :=
  ∃ executable args name runpath bsub,
    Submit iens executable args name runpath bsub ∈ ops.

(** [submit] was called with the run path [dir]. *)
Definition submitted_with_runpath (ops : list Op) (dir : string) : Prop :=
  ∃ iens executable args name bsub,
    Submit iens executable args name (Some dir) bsub ∈ ops.

(** A job identifier as [submit] reads it: one digit or more. *)
Definition is_job_number (job_id : string) : Prop :=
  job_id ≠ EmptyString ∧ Text.all_chars Text.is_ascii_digit job_id.

(** No event of the list is about the realization. *)
Definition quiet (iens : Z) (events : list Event) : Prop :=
  Forall (λ e, event_iens e ≠ iens) events.

(** In the list, a [FinishedEvent] of the realization is followed by no
    event about it. *)
Fixpoint finished_last (iens : Z) (events : list Event) : Prop :=
  match events with
  | [] => True
  | e :: events' =>
      match e with
      | FinishedEvent i _ _ => i = iens → quiet iens events'
      | StartedEvent _ => True
      end
      ∧ finished_last iens events'
  end.

(** The records logged between two states. *)
Definition logged_since (before after : LsfDriver) : list LogRecord :=
  drop (length (logged before)) (logged after).


(** ** The helper [poll] of [tests/utils.py]

    It takes the events off the queue of a driver until the set of the
    realizations that finished equals [expected]. [events] is what the queue
    delivers, in order; the two callbacks, when given, act on a state of
    the caller's. The result is [None] when the events run out with the
    loop still waiting; otherwise it is the caller's state, the set
    [completed] and the events left on the queue. *)
Module TestUtils.
Section poll.
Context {S : Type}.
Context (started : option (Z → S → S)) (finished : option (Z → Z → bool → S → S)).

Fixpoint poll_loop (expected completed : gset Z) (events : list Event)
    (st : S) : option (S * gset Z * list Event) :=
  match events with
  | [] => None
  | StartedEvent iens :: events' =>
      poll_loop expected completed events'
        (match started with Some f => f iens st | None => st end)
  | FinishedEvent iens returncode aborted :: events' =>
      let st := match finished with
                | Some f => f iens returncode aborted st
                | None => st
                end in
      let completed := {[iens]} ∪ completed in
      if decide (completed = expected) then Some (st, completed, events')
      else poll_loop expected completed events' st
  end.

Definition poll (expected : gset Z) (events : list Event) (st : S)
    : option (S * gset Z * list Event) :=
  poll_loop expected ∅ events st.
End poll.
End TestUtils.

(** The realizations the list has a [FinishedEvent] of. *)
Definition finished_in (events : list Event) : gset Z :=
  list_to_set
    (omap (λ e, match e with
                | FinishedEvent iens _ _ => Some iens
                | StartedEvent _ => None
                end) events).

(** A report about a job has nothing left to tell: the job is not tracked,
    or it is known in the reported state. *)
Definition settled (jobs : gmap string (Z * JobState))
    (item : string * AnyJob) : Prop :=
  jobs !! item.1 = None ∨ ∃ iens, jobs !! item.1 = Some (iens, job_state item.2).

(** The same output with another return code. *)
Definition with_returncode (process : Completed) (code : Z) : Completed :=
  {| returncode := code; stdout := stdout process; stderr := stderr process;
     stderr_is_utf8 := stderr_is_utf8 process |}.

(** * Properties *)

(** ** Text *)

Section text_facts.
Import Text.

Lemma append_cons x (a b : string) : String x a +:+ b = String x (a +:+ b).
Proof. reflexivity. Qed.

Lemma append_empty_l (a : string) : "" +:+ a = a.
Proof. reflexivity. Qed.

Lemma append_assoc (a b c : string) : (a +:+ b) +:+ c = a +:+ (b +:+ c).
Proof.
  induction a as [|x a IH]; [done |]. by rewrite !append_cons, IH.
Qed.


Lemma strip_prefix_Some (p s r : string) :
  strip_prefix p s = Some r ↔ s = p +:+ r.
Proof.
  revert s; induction p as [|a p IH]; intros s; simpl.
  - rewrite append_empty_l. split; congruence.
  - rewrite append_cons. destruct s as [|b s]; [split; discriminate |].
    destruct (decide (a = b)) as [->|Hne].
    + rewrite IH. split; [by intros -> | by intros [= ->]].
    + split; [discriminate | intros [= -> _]; done].
Qed.

Lemma is_prefix_true (p s : string) :
  is_prefix p s = true ↔ ∃ r, s = p +:+ r.
Proof.
  revert s; induction p as [|a p IH]; intros s; simpl.
  - split; [eauto | done].
  - destruct s as [|b s].
    + split; [discriminate | intros [r [=]]].
    + rewrite andb_true_iff, bool_decide_eq_true, IH. split.
      * intros [-> [r ->]]. eauto.
      * intros [r [= -> ->]]. eauto.
Qed.

Lemma all_chars_nil (f : ascii → bool) : all_chars f "".
Proof. constructor. Qed.

Lemma all_chars_cons (f : ascii → bool) c s :
  all_chars f (String c s) ↔ f c = true ∧ all_chars f s.
Proof. unfold all_chars; simpl. by rewrite Forall_cons. Qed.

Lemma span_eq (f : ascii → bool) (s a b : string) :
  span f s = (a, b) →
  s = a +:+ b ∧ all_chars f a
  ∧ match b with String c _ => f c = false | EmptyString => True end.
Proof.
  revert a b; induction s as [|c s IH]; intros a b; simpl.
  - intros [= <- <-]. split_and!; [done | apply all_chars_nil | done].
  - destruct (f c) eqn:Hc.
    + destruct (span f s) as [a' b'] eqn:Hs. intros [= <- <-].
      destruct (IH _ _ eq_refl) as (-> & Ha & Hb).
      split_and!; [done | by apply all_chars_cons | done].
    + intros [= <- <-].
      split_and!; [done | apply all_chars_nil | done].
Qed.

Lemma span_append (f : ascii → bool) (a b : string) :
  all_chars f a →
  match b with String c _ => f c = false | EmptyString => True end →
  span f (a +:+ b) = (a, b).
Proof.
  intros Ha Hb. induction a as [|c a IH].
  - rewrite append_empty_l. destruct b as [|c b]; simpl; [done | by rewrite Hb].
  - apply all_chars_cons in Ha as [Hc Ha].
    rewrite append_cons. simpl. by rewrite Hc, (IH Ha).
Qed.
End text_facts.

(** ** The pattern of [submit] *)

Section pattern_facts.
Import Text Re.

Lemma dot_plus_then_true (p s : string) :
  dot_plus_then p s = true
  ↔ ∃ mid suf, s = mid +:+ p +:+ suf ∧ mid ≠ EmptyString ∧ all_chars not_LF mid.
Proof.
  induction s as [|c s IH]; simpl.
  - split; [discriminate |]. intros ([|x mid] & suf & Hs & Hmid & _); done.
  - rewrite andb_true_iff, orb_true_iff, is_prefix_true, IH. split.
    + intros [Hc [[r ->] | (mid & suf & -> & Hmid & Hall)]].
      * exists (String c ""), r. split_and!; [done | done |].
        apply all_chars_cons. split; [done | apply all_chars_nil].
      * exists (String c mid), suf. split_and!; [done | done |].
        by apply all_chars_cons.
    + intros ([|x mid] & suf & Hs & Hmid & Hall); [done |].
      rewrite append_cons in Hs. injection Hs as -> ->.
      apply all_chars_cons in Hall as [Hx Hall]. split; [done |].
      destruct mid as [|y mid]; [left; by exists suf |].
      right. exists (String y mid), suf. done.
Qed.

#[local] Arguments strip_prefix : simpl never.
#[local] Arguments span : simpl never.
#[local] Arguments dot_plus_then : simpl never.

Lemma match_submitted_Some (s job_id : string) :
  match_submitted s = Some job_id ↔ submitted_at s job_id.
Proof.
  unfold match_submitted, submitted_at. split.
  - destruct (strip_prefix "Job <" s) as [s1|] eqn:H1; [simpl | done].
    apply strip_prefix_Some in H1 as ->.
    destruct (span is_ascii_digit s1) as [digits s2] eqn:H2.
    apply span_eq in H2 as (-> & Hdigits & _).
    destruct (decide (digits = "")) as [|Hne]; [done |].
    destruct (strip_prefix "> is submitted to " s2) as [s3|] eqn:H3;
      simpl; [| done].
    apply strip_prefix_Some in H3 as ->.
    destruct (dot_plus_then " queue" s3) eqn:H4; [| done].
    apply dot_plus_then_true in H4 as (mid & suf & -> & Hmid & Hall).
    intros [= <-]. by exists mid, suf.
  - intros (mid & suf & -> & Hne & Hdigits & Hmid & Hall).
    rewrite (proj2 (strip_prefix_Some "Job <" _ _) eq_refl). simpl.
    rewrite span_append by done.
    destruct (decide (job_id = "")) as [|_]; [done |].
    rewrite (proj2 (strip_prefix_Some "> is submitted to " _ _) eq_refl).
    simpl.
    rewrite (proj2 (dot_plus_then_true " queue" _)); [done |].
    by exists mid, suf.
Qed.

#[local] Arguments match_submitted : simpl never.

Lemma match_submitted_search (s job_id : string) :
  match_submitted s = Some job_id → search_submitted s = Some job_id.
Proof. intros H. destruct s; [done | simpl; by rewrite H]. Qed.

Lemma append_eq_empty (a b : string) :
  a +:+ b = EmptyString → a = EmptyString ∧ b = EmptyString.
Proof. by destruct a. Qed.

(** A successful search returns the number of the leftmost match. *)
Lemma search_submitted_Some (s job_id : string) :
  search_submitted s = Some job_id →
  ∃ pre rest,
    s = pre +:+ rest ∧ submitted_at rest job_id
    ∧ ∀ pre' rest' job_id',
        s = pre' +:+ rest' → submitted_at rest' job_id' →
        String.length pre ≤ String.length pre'.
Proof.
  induction s as [|c s IH]; simpl.
  - done.
  - destruct (match_submitted (String c s)) as [j|] eqn:H.
    + intros [= ->]. exists "", (String c s).
      split_and!; [done | by apply match_submitted_Some |]. simpl; lia.
    + intros (pre & rest & -> & Hat & Hleft)%IH.
      exists (String c pre), rest. split_and!; [done | done |].
      intros [|c' pre'] rest' j' Heq Hat'.
      * rewrite append_empty_l in Heq. subst rest'.
        apply match_submitted_Some in Hat'. congruence.
      * rewrite append_cons in Heq. injection Heq as <- Heq. simpl.
        specialize (Hleft _ _ _ Heq Hat'). lia.
Qed.

(** A failed search: the pattern matches nowhere. *)
Lemma search_submitted_None (s : string) :
  search_submitted s = None ↔ ∀ job_id, ¬ submitted_in s job_id.
Proof.
  split.
  - induction s as [|c s IH]; simpl.
    + intros _ j (pre & rest & Heq & Hat).
      symmetry in Heq. apply append_eq_empty in Heq as [-> ->].
      apply match_submitted_Some in Hat. by vm_compute in Hat.
    + destruct (match_submitted (String c s)) as [j|] eqn:H; [done |].
      intros Hs j ([|c' pre] & rest & Heq & Hat).
      * rewrite append_empty_l in Heq. subst rest.
        apply match_submitted_Some in Hat. congruence.
      * rewrite append_cons in Heq. injection Heq as <- Heq.
        apply (IH Hs j). by exists pre, rest.
  - intros Hno. destruct (search_submitted s) as [j|] eqn:Hs; [| done].
    apply search_submitted_Some in Hs as (pre & rest & Heq & Hat & _).
    destruct (Hno j). by exists pre, rest.
Qed.

(** The identifiers [submit] records are runs of digits. *)
Lemma search_submitted_digits (s job_id : string) :
  search_submitted s = Some job_id →
  job_id ≠ EmptyString ∧ all_chars is_ascii_digit job_id.
Proof.
  intros (pre & rest & _ & (mid & suf & _ & Hne & Hdigits & _) & _)
    %search_submitted_Some.
  done.
Qed.
End pattern_facts.

(** ** Splitting at whitespace *)

Section split_facts.
Import Text.








End split_facts.

(** ** Dictionaries *)

Section dict_facts.
Context {K V : Type} `{EqDecision K}.
Implicit Types (d : list (K * V)) (k : K) (v : V).


Lemma get_Some_keys k v d : PyDict.get k d = Some v → k ∈ PyDict.keys d.
Proof.
  induction d as [|[k0 v0] d IH]; simpl; [done |].
  destruct (decide (k = k0)) as [->|]; [left | right; auto].
Qed.

Lemma get_elem_of k v d : PyDict.get k d = Some v → (k, v) ∈ d.
Proof.
  induction d as [|[k0 v0] d IH]; simpl; [done |].
  destruct (decide (k = k0)) as [->|]; [intros [= ->]; left | right; auto].
Qed.

Lemma elem_of_get k v d : NoDup (PyDict.keys d) → (k, v) ∈ d → PyDict.get k d = Some v.
Proof.
  induction d as [|[k0 v0] d IH]; simpl; [by intros _ ?%elem_of_nil |].
  intros [Hk0 Hd]%NoDup_cons [[= -> ->] | Hin]%elem_of_cons.
  - by destruct (decide (k0 = k0)).
  - destruct (decide (k = k0)) as [->|]; [| auto].
    destruct Hk0. by apply (list_elem_of_fmap_2 fst) in Hin.
Qed.

Lemma keys_set k v d :
  PyDict.keys (PyDict.set k v d)
  = if decide (k ∈ PyDict.keys d) then PyDict.keys d else PyDict.keys d ++ [k].
Proof.
  unfold PyDict.keys. induction d as [|[k0 v0] d IH]; simpl.
  - destruct (decide (k ∈ [])) as [?%elem_of_nil|]; done.
  - destruct (decide (k = k0)) as [->|Hne]; csimpl.
    + rewrite decide_True; [done | left].
    + rewrite IH. destruct (decide (k ∈ d.*1)).
      * rewrite decide_True; [done | by right].
      * rewrite decide_False; [done |].
        by intros [?|?]%elem_of_cons.
Qed.

Lemma NoDup_keys_set k v d :
  NoDup (PyDict.keys d) → NoDup (PyDict.keys (PyDict.set k v d)).
Proof.
  intros Hd. rewrite keys_set. destruct (decide (k ∈ PyDict.keys d)); [done |].
  apply NoDup_app. split_and!; [done | | apply NoDup_singleton].
  by intros x Hx ->%list_elem_of_singleton.
Qed.
End dict_facts.

(** ** [parse_bjobs] *)

Section parse_facts.
Import Text.


Lemma parse_step_keys acc line :
  NoDup (PyDict.keys acc.2) → NoDup (PyDict.keys (parse_step acc line).2).
Proof.
  unfold parse_step. destruct (parse_line line); simpl; [done | done |].
  apply NoDup_keys_set.
Qed.




Lemma parse_lines_keys (lines : list string) acc :
  NoDup (PyDict.keys acc.2) →
  NoDup (PyDict.keys (foldl parse_step acc lines).2).
Proof.
  revert acc; induction lines as [|line lines IH]; intros acc Hacc; [done |].
  simpl. by apply IH, parse_step_keys.
Qed.

Lemma parse_bjobs_keys (bjobs_output : string) :
  NoDup (PyDict.keys (parse_bjobs bjobs_output).2).
Proof. apply parse_lines_keys. simpl. apply NoDup_nil_2. Qed.
End parse_facts.



(** ** [submit] *)

Section submit_facts.
Context (self : LsfDriver) (iens : Z) (executable : string)
  (args : list string) (name : string) (runpath : option string)
  (process : Completed).

Lemma submit_rejected :
  returncode process ≠ 0%Z →
  ∃ self',
    submit self iens executable args name runpath process
    = (self', Some (RuntimeError (stderr process)))
    ∧ same_bookkeeping self self'.
Proof.
  intros Hrc. unfold submit. rewrite decide_True by done.
  eexists. split; [done |]. by unfold same_bookkeeping.
Qed.

Lemma submit_not_understood :
  returncode process = 0%Z →
  Re.search_submitted (stdout process) = None →
  ∃ self',
    submit self iens executable args name runpath process
    = (self',
       Some (RuntimeError
               ("Could not understand '" +:+ stdout process +:+ "' from bsub")))
    ∧ same_bookkeeping self self'.
Proof.
  intros Hrc Hs. unfold submit. rewrite decide_False by (by intros []).
  rewrite Hs. eexists. split; [done |]. by unfold same_bookkeeping.
Qed.

Lemma submit_accepted job_id :
  returncode process = 0%Z →
  Re.search_submitted (stdout process) = Some job_id →
  ∃ self',
    submit self iens executable args name runpath process = (self', None)
    ∧ _jobs self' = <[job_id := (iens, PEND)]> (_jobs self)
    ∧ _iens2jobid self' = <[iens := job_id]> (_iens2jobid self)
    ∧ event_queue self' = event_queue self
    ∧ files self'
      = match runpath with
        | Some dir =>
            <[(dir, LSF_INFO_JSON_FILENAME) := json_dumps_job_id job_id]>
              (files self)
        | None => files self
        end.
Proof.
  intros Hrc Hs. unfold submit. rewrite decide_False by (by intros []).
  rewrite Hs. eexists. split; [done |]. by destruct runpath.
Qed.

(** The three outcomes above are the only ones. *)
Lemma submit_returns self' :
  submit self iens executable args name runpath process = (self', None) →
  returncode process = 0%Z
  ∧ ∃ job_id, Re.search_submitted (stdout process) = Some job_id.
Proof.
  unfold submit. destruct (decide (returncode process ≠ 0%Z)) as [|Hrc]; [done |].
  destruct (Re.search_submitted (stdout process)) as [job_id|]; [| done].
  intros _. split; [| by exists job_id].
  by destruct (decide (returncode process = 0%Z)).
Qed.
End submit_facts.



(** C10. When [bsub] exits with 0 and the pattern
    [Job <N> is submitted to ... queue] matches nowhere in its output,
    [submit] raises and records nothing. Conversely, whenever [submit]
    returns, the pattern matches the output, and the identifier that is
    recorded is the number of its leftmost match. *)
Theorem submit_needs_the_pattern (self : LsfDriver) (iens : Z)
    (executable : string) (args : list string) (name : string)
    (runpath : option string) (process : Completed) :
  returncode process = 0%Z →
  ((∀ job_id, ¬ submitted_in (stdout process) job_id) →
   ∃ self' exn,
     submit self iens executable args name runpath process = (self', Some exn)
     ∧ same_bookkeeping self self')
  ∧ (∀ self',
       submit self iens executable args name runpath process = (self', None) →
       ∃ pre rest job_id,
         stdout process = pre +:+ rest ∧ submitted_at rest job_id
         ∧ (∀ pre' rest' job_id',
              stdout process = pre' +:+ rest' → submitted_at rest' job_id' →
              String.length pre ≤ String.length pre')
         ∧ _jobs self' = <[job_id := (iens, PEND)]> (_jobs self)
         ∧ _iens2jobid self' = <[iens := job_id]> (_iens2jobid self)).
Proof.
  intros Hrc. split.
  - intros Hno%search_submitted_None.
    destruct (submit_not_understood self iens executable args name runpath
                process Hrc Hno) as (self' & Heq & Hsame).
    eauto.
  - intros self' Hret.
    destruct (submit_returns _ _ _ _ _ _ _ _ Hret) as [_ [job_id Hs]].
    destruct (submit_accepted self iens executable args name runpath process
                job_id Hrc Hs) as (self'' & Heq & Hjobs & Hiens & _).
    rewrite Hret in Heq. injection Heq as <-.
    apply search_submitted_Some in Hs as (pre & rest & Hpre & Hat & Hleft).
    by exists pre, rest, job_id.
Qed.

Lemma submit_needs_the_pattern_witness :
  ∃ self' exn,
    submit Scenario.fresh 0 "job.sh" [] "dummy" None
      (Scenario.exits_0 "Job <abc> is submitted to default queue")
    = (self', Some exn)
    ∧ same_bookkeeping Scenario.fresh self'.
Proof.
  apply (submit_needs_the_pattern Scenario.fresh 0 "job.sh" [] "dummy" None
           (Scenario.exits_0 "Job <abc> is submitted to default queue")).
  - reflexivity.
  - apply search_submitted_None. reflexivity.
Defined.

(** ** [kill] *)

Lemma kill_bookkeeping (self : LsfDriver) (iens : Z) (process : Completed) :
  (kill self iens process).2 = None
  ∧ same_bookkeeping self (kill self iens process).1.
Proof.
  unfold kill, same_bookkeeping.
  destruct (_iens2jobid self !! iens) as [job_id|]; [| done].
  destruct (decide (returncode process ≠ 0%Z)); [done |].
  by destruct (negb (Re.match_terminated job_id (stdout process))).
Qed.

(** C6. [kill] never raises, and it changes neither the two maps of the
    driver, nor the queue of events, nor the files, whatever [bkill]
    answers: it puts no event and forgets nothing. For a realization
    without a job identifier it does nothing but log one error. *)
Theorem kill_only_logs (self : LsfDriver) (iens : Z) (process : Completed) :
  (kill self iens process).2 = None
  ∧ same_bookkeeping self (kill self iens process).1
  ∧ (_iens2jobid self !! iens = None →
     kill self iens process
     = (add_log self ERROR (KillMissingJobid iens), None)).
Proof.
  destruct (kill_bookkeeping self iens process) as [Hnone Hsame].
  split_and!; [done | done |].
  intros Hi. unfold kill. by rewrite Hi.
Qed.

Lemma kill_only_logs_witness :
  kill Scenario.fresh 7 (Scenario.exits_0 "")
  = (add_log Scenario.fresh ERROR (KillMissingJobid 7), None).
Proof. apply (kill_only_logs Scenario.fresh 7 (Scenario.exits_0 "")). reflexivity. Defined.

(** ** The loop of [poll] *)

Ltac poll_job_cases self job_id job :=
  unfold poll_job;
  let iens := fresh "iens" in
  let old := fresh "old_state" in
  let Hj := fresh "Hjob" in
  let Hi := fresh "Hiens" in
  let Hold := fresh "Hold" in
  destruct (_jobs self !! job_id) as [[iens old]|] eqn:Hj;
    [ destruct (decide (old = job_state job)) as [Hold|Hold];
      [ | destruct job as [[]| |]; simpl in *;
          [ destruct (_iens2jobid self !! iens) eqn:Hi
          | destruct (_iens2jobid self !! iens) eqn:Hi
          | | ] ]
    | ].

Section poll_facts.
Implicit Types (self : LsfDriver) (job : AnyJob) (job_id : string).

Lemma poll_job_untracked self job_id job :
  _jobs self !! job_id = None → poll_job self job_id job = (self, None).
Proof. intros H. unfold poll_job. by rewrite H. Qed.

(** The events one report puts on the queue. *)
Lemma poll_job_queue self job_id job :
  event_queue (poll_job self job_id job).1
  = event_queue self
    ++ match (poll_job self job_id job).2 with
       | None => option_list (transition_event (_jobs self) (job_id, job))
       | Some _ => []
       end.
Proof.
  unfold transition_event. simpl.
  poll_job_cases self job_id job; simpl;
    rewrite ?app_nil_r; try done;
    try (rewrite decide_False by done; done).
Qed.

(** A report about [job_id] touches the entry of no other job, adds no
    entry and leaves every realization index as it is. *)
Lemma poll_job_other self job_id job k :
  k ≠ job_id →
  _jobs (poll_job self job_id job).1 !! k = _jobs self !! k.
Proof.
  intros Hne. poll_job_cases self job_id job; simpl; try done;
    by rewrite ?lookup_delete_ne, ?lookup_insert_ne.
Qed.

Lemma poll_job_jobs_mono self job_id job k i s :
  _jobs (poll_job self job_id job).1 !! k = Some (i, s) →
  ∃ s0, _jobs self !! k = Some (i, s0).
Proof.
  destruct (decide (k = job_id)) as [->|Hne];
    [| rewrite poll_job_other by done; eauto].
  poll_job_cases self job_id job; simpl; eauto;
    rewrite ?lookup_delete_eq, ?lookup_insert_eq; try done.
  all: try (intros [= <- <-]; eauto).
  all: rewrite Hjob; first [done | intros [= <- <-]; eauto].
Qed.

Lemma poll_job_iens_mono self job_id job i x :
  _iens2jobid (poll_job self job_id job).1 !! i = Some x →
  _iens2jobid self !! i = Some x.
Proof.
  poll_job_cases self job_id job; simpl; try done.
  all: by intros [_ ?]%lookup_delete_Some.
Qed.

Lemma poll_job_files self job_id job :
  files (poll_job self job_id job).1 = files self.
Proof. poll_job_cases self job_id job; by simpl. Qed.

(** When a report puts a [FinishedEvent], the job and its realization are
    gone from the maps. *)
Lemma poll_job_finished self job_id job iens rc ab :
  FinishedEvent iens rc ab
    ∈ option_list (transition_event (_jobs self) (job_id, job)) →
  (poll_job self job_id job).2 = None →
  _jobs (poll_job self job_id job).1 !! job_id = None
  ∧ _iens2jobid (poll_job self job_id job).1 !! iens = None
  ∧ (∃ s0, _jobs self !! job_id = Some (iens, s0))
  ∧ ((job = FinishedJob Finished_EXIT ∧ rc = 1%Z ∧ ab = true)
     ∨ (job = FinishedJob Finished_DONE ∧ rc = 0%Z ∧ ab = false)).
Proof.
  unfold transition_event. simpl.
  poll_job_cases self job_id job; simpl;
    rewrite ?decide_True by done; rewrite ?decide_False by done; simpl;
    try (by intros ?%elem_of_nil); try done.
  all: intros [= <- <- <-]%list_elem_of_singleton _.
  all: rewrite !lookup_delete_eq; split_and!; eauto.
Qed.

Lemma emitted_app self self' evs :
  event_queue self' = event_queue self ++ evs → emitted self self' = evs.
Proof. intros H. unfold emitted. by rewrite H, drop_app_length. Qed.

Lemma emitted_refl self : emitted self self = [].
Proof. apply emitted_app. by rewrite app_nil_r. Qed.

(** What the loop puts on the queue: the events of the reports it went
    through, in their order. *)
Lemma poll_jobs_queue (items : list (string * AnyJob)) self :
  ∃ evs, event_queue (poll_jobs self items).1 = event_queue self ++ evs.
Proof.
  revert self; induction items as [|[job_id job] items IH]; intros self; simpl.
  - exists []. by rewrite app_nil_r.
  - pose proof (poll_job_queue self job_id job) as Hq.
    destruct (poll_job self job_id job) as [self1 [e|]]; simpl in *; [eauto |].
    destruct (IH self1) as [evs Hevs]. rewrite Hevs, Hq, <-app_assoc. eauto.
Qed.

Lemma poll_jobs_jobs_mono (items : list (string * AnyJob)) self k i s :
  _jobs (poll_jobs self items).1 !! k = Some (i, s) →
  ∃ s0, _jobs self !! k = Some (i, s0).
Proof.
  revert self s; induction items as [|[job_id job] items IH]; intros self s;
    simpl; [eauto |].
  pose proof (poll_job_jobs_mono self job_id job k i) as Hmono.
  destruct (poll_job self job_id job) as [self1 [e|]]; simpl in *; [eauto |].
  intros [s1 Hs1]%IH. eauto.
Qed.

Lemma poll_jobs_iens_mono (items : list (string * AnyJob)) self i x :
  _iens2jobid (poll_jobs self items).1 !! i = Some x →
  _iens2jobid self !! i = Some x.
Proof.
  revert self; induction items as [|[job_id job] items IH]; intros self;
    simpl; [done |].
  pose proof (poll_job_iens_mono self job_id job i x) as Hmono.
  destruct (poll_job self job_id job) as [self1 [e|]]; simpl in *; [done |].
  intros ?%IH. auto.
Qed.

Lemma poll_jobs_jobs_None (items : list (string * AnyJob)) self k :
  _jobs self !! k = None → _jobs (poll_jobs self items).1 !! k = None.
Proof.
  intros Hk. destruct (_jobs (poll_jobs self items).1 !! k) as [[i s]|] eqn:H;
    [| done].
  apply poll_jobs_jobs_mono in H as [s0 H]. congruence.
Qed.

Lemma poll_jobs_iens_None (items : list (string * AnyJob)) self i :
  _iens2jobid self !! i = None →
  _iens2jobid (poll_jobs self items).1 !! i = None.
Proof.
  intros Hi. destruct (_iens2jobid (poll_jobs self items).1 !! i) eqn:H;
    [| done].
  apply poll_jobs_iens_mono in H. congruence.
Qed.

(** The loop leaves the entries of the jobs that are not reported. *)
Lemma poll_jobs_not_reported (items : list (string * AnyJob)) self k :
  k ∉ PyDict.keys items →
  _jobs (poll_jobs self items).1 !! k = _jobs self !! k.
Proof.
  unfold PyDict.keys.
  revert self; induction items as [|[job_id job] items IH]; intros self;
    csimpl; [done |].
  intros [Hne Hk]%not_elem_of_cons.
  pose proof (poll_job_other self job_id job k Hne) as Hother.
  destruct (poll_job self job_id job) as [self1 [e|]]; simpl in *; [done |].
  by rewrite IH.
Qed.

Lemma poll_jobs_files (items : list (string * AnyJob)) self :
  files (poll_jobs self items).1 = files self.
Proof.
  revert self; induction items as [|[job_id job] items IH]; intros self;
    simpl; [done |].
  pose proof (poll_job_files self job_id job) as Hf.
  destruct (poll_job self job_id job) as [self1 [e|]]; simpl in *; [done |].
  by rewrite IH.
Qed.

(** Every [FinishedEvent] of the loop comes from a report [DONE] or [EXIT]
    about a job that was tracked for that realization, and the job and the
    realization are gone from the maps when the loop ends, however it
    ends. *)
Lemma poll_jobs_finished (items : list (string * AnyJob)) self iens rc ab :
  FinishedEvent iens rc ab ∈ emitted self (poll_jobs self items).1 →
  _iens2jobid (poll_jobs self items).1 !! iens = None
  ∧ ∃ job_id job,
      (job_id, job) ∈ items
      ∧ (∃ s0, _jobs self !! job_id = Some (iens, s0))
      ∧ _jobs (poll_jobs self items).1 !! job_id = None
      ∧ ((job = FinishedJob Finished_EXIT ∧ rc = 1%Z ∧ ab = true)
         ∨ (job = FinishedJob Finished_DONE ∧ rc = 0%Z ∧ ab = false)).
Proof.
  revert self; induction items as [|[job_id job] items IH]; intros self; simpl.
  - rewrite emitted_refl. by intros ?%elem_of_nil.
  - pose proof (poll_job_queue self job_id job) as Hq.
    pose proof (poll_job_finished self job_id job iens rc ab) as Hfin.
    pose proof (poll_job_jobs_mono self job_id job) as Hmono.
    destruct (poll_job self job_id job) as [self1 [e|]]; simpl in *.
    { rewrite (emitted_app _ _ _ Hq). by intros ?%elem_of_nil. }
    destruct (poll_jobs_queue items self1) as [evs2 Hq2].
    rewrite (emitted_app self _
               (option_list (transition_event (_jobs self) (job_id, job))
                ++ evs2)) by (by rewrite Hq2, Hq, <-app_assoc).
    intros [Hin | Hin]%elem_of_app.
    + destruct (Hfin Hin eq_refl) as (Hj & Hi & Htracked & Hjob).
      split; [by apply poll_jobs_iens_None |].
      exists job_id, job. split_and!; [left | done | | done].
      by apply poll_jobs_jobs_None.
    + rewrite <-(emitted_app self1 _ evs2 Hq2) in Hin.
      destruct (IH self1 Hin) as (Hi & j & job' & Hitem & [s0 Hs0] & Hj & Hjob).
      split; [done |]. exists j, job'.
      split_and!; [by right | by eapply Hmono | done | done].
Qed.




(** ** The two maps stay inverse to each other *)

Lemma inverse_maps_update (jobs : gmap string (Z * JobState))
    (iens2jobid : gmap Z string) job_id iens old new :
  inverse_maps jobs iens2jobid →
  jobs !! job_id = Some (iens, old) →
  inverse_maps (<[job_id := (iens, new)]> jobs) iens2jobid.
Proof.
  intros Hinv Hj k i. rewrite lookup_insert.
  destruct (decide (job_id = k)) as [<-|Hk]; [| apply Hinv]. split.
  - intros [s [= <- _]]. apply Hinv. eauto.
  - intros [s Hs]%Hinv. rewrite Hj in Hs. injection Hs as <- <-. eauto.
Qed.

Lemma inverse_maps_delete (jobs : gmap string (Z * JobState))
    (iens2jobid : gmap Z string) job_id iens state :
  inverse_maps jobs iens2jobid →
  jobs !! job_id = Some (iens, state) →
  inverse_maps (delete job_id jobs) (delete iens iens2jobid).
Proof.
  intros Hinv Hj k i. rewrite !lookup_delete.
  destruct (decide (job_id = k)) as [<-|Hk];
    destruct (decide (iens = i)) as [<-|Hi].
  - split; [by intros [? ?] | done].
  - split; [by intros [? ?] |]. intros [s Hs]%Hinv. congruence.
  - split; [| done]. intros [s Hs].
    assert (iens2jobid !! iens = Some k) by (apply Hinv; eauto).
    assert (iens2jobid !! iens = Some job_id) by (apply Hinv; eauto).
    congruence.
  - apply Hinv.
Qed.

Lemma inverse_maps_insert (jobs : gmap string (Z * JobState))
    (iens2jobid : gmap Z string) job_id iens state :
  inverse_maps jobs iens2jobid →
  jobs !! job_id = None → iens2jobid !! iens = None →
  inverse_maps (<[job_id := (iens, state)]> jobs) (<[iens := job_id]> iens2jobid).
Proof.
  intros Hinv Hj Hi k i. rewrite !lookup_insert.
  destruct (decide (job_id = k)) as [<-|Hk];
    destruct (decide (iens = i)) as [<-|Hne].
  - split; eauto.
  - split; [intros [s [= ? ?]]; congruence |].
    intros [s Hs]%Hinv. congruence.
  - split; [| intros [= ?]; congruence]. intros [s Hs].
    assert (iens2jobid !! iens = Some k) by (apply Hinv; eauto). congruence.
  - apply Hinv.
Qed.

Lemma poll_job_inverse self job_id job :
  mutually_inverse self →
  (poll_job self job_id job).2 = None
  ∧ mutually_inverse (poll_job self job_id job).1.
Proof.
  intros Hinv. unfold mutually_inverse in *.
  poll_job_cases self job_id job; simpl; try done.
  all: try (assert (_iens2jobid self !! iens = Some job_id)
              by (apply Hinv; eauto); congruence).
  all: split; [done |]; rewrite ?delete_insert_eq.
  all: first [ by eapply inverse_maps_delete
             | by eapply inverse_maps_update ].
Qed.

Lemma poll_jobs_inverse (items : list (string * AnyJob)) self :
  mutually_inverse self →
  (poll_jobs self items).2 = None
  ∧ mutually_inverse (poll_jobs self items).1.
Proof.
  revert self; induction items as [|[job_id job] items IH]; intros self Hinv;
    simpl; [done |].
  destruct (poll_job_inverse self job_id job Hinv) as [Hnone Hinv1].
  destruct (poll_job self job_id job) as [self1 [e|]]; simpl in *; [done |].
  by apply IH.
Qed.

(** ** A whole cycle *)

(** After the loop, [poll_stat] only logs. *)
Lemma poll_stat_loop self (stat : list (string * AnyJob)) :
  (poll_stat self stat).2 = (poll_jobs self stat).2
  ∧ same_bookkeeping (poll_jobs self stat).1 (poll_stat self stat).1.
Proof.
  unfold poll_stat, same_bookkeeping.
  destruct (poll_jobs self stat) as [self' [e|]]; simpl; [done |].
  by destruct (decide (_ ≠ ∅)).
Qed.

Lemma emitted_same_queue self1 self2 self' :
  event_queue self1 = event_queue self2 →
  emitted self1 self' = emitted self2 self'.
Proof. unfold emitted. intros H. by rewrite H. Qed.

Lemma emitted_same_queue_r self self1 self2 :
  event_queue self1 = event_queue self2 →
  emitted self self1 = emitted self self2.
Proof. unfold emitted. intros H. by rewrite H. Qed.

(** What validates has the keys of what was parsed, in their order, and
    each job is the reading of the state parsed for it. *)
Lemma _Stat_inr (jobs : list (string * string)) (stat : list (string * AnyJob)) :
  _Stat jobs = inr stat →
  Forall2 (λ kv item, item.1 = kv.1 ∧ validate_AnyJob kv.2 = Some item.2)
    jobs stat.
Proof.
  unfold _Stat.
  destruct (mapM _ jobs) as [stat'|] eqn:Hm; [| done].
  intros [= <-]. apply mapM_Some_1 in Hm.
  eapply Forall2_impl; [exact Hm |]. intros [k v] [k' job]; simpl.
  destruct (validate_AnyJob v); simpl; [| done]. by intros [= <- <-].
Qed.

Lemma _Stat_keys (jobs : list (string * string)) (stat : list (string * AnyJob)) :
  _Stat jobs = inr stat → PyDict.keys stat = PyDict.keys jobs.
Proof.
  intros H. apply _Stat_inr in H. unfold PyDict.keys.
  induction H as [|[k v] [k' job] jobs stat [Hk _] _ IH]; csimpl; [done |].
  simpl in Hk. by rewrite Hk, IH.
Qed.

Lemma _Stat_elem_of (jobs : list (string * string))
    (stat : list (string * AnyJob)) job_id job :
  _Stat jobs = inr stat → (job_id, job) ∈ stat →
  ∃ state, (job_id, state) ∈ jobs ∧ validate_AnyJob state = Some job.
Proof.
  intros H Hin. apply _Stat_inr in H.
  induction H as [|[k v] [k' job'] jobs stat [Hk Hv] _ IH];
    [by apply elem_of_nil in Hin |].
  simpl in *. apply elem_of_cons in Hin as [[= -> ->] | Hin].
  - exists v. split; [subst; left | done].
  - destruct (IH Hin) as (state & ? & ?). exists state. split; [by right | done].
Qed.

Lemma _Stat_raises (jobs : list (string * string)) e :
  _Stat jobs = inl e → e = ValidationError.
Proof. unfold _Stat. destruct (mapM _ jobs); by intros [= <-]. Qed.

(** A cycle either does nothing (no job is tracked), or raises before the
    loop with nothing changed but the log, or is the loop and its warning
    on what validated, run from a state that differs in the log only. *)
Lemma poll_cycle_cases self process :
  (_jobs self = ∅ ∧ poll_cycle self process = (self, None))
  ∨ (∃ self1 e,
       poll_cycle self process = (self1, Some e)
       ∧ same_bookkeeping self self1
       ∧ ((e = UnicodeDecodeError ∧ returncode process ≠ 0%Z
           ∧ stderr_is_utf8 process = false)
          ∨ (e = ValidationError
             ∧ _Stat (parse_bjobs (stdout process)).2 = inl ValidationError)))
  ∨ (∃ self1 stat,
       _Stat (parse_bjobs (stdout process)).2 = inr stat
       ∧ same_bookkeeping self self1
       ∧ poll_cycle self process = poll_stat self1 stat).
Proof.
  unfold poll_cycle.
  destruct (decide (_jobs self = ∅)); [by left |].
  destruct (decide (_ ∧ _)) as [[? ?]|_].
  { right; left. exists self, UnicodeDecodeError.
    unfold same_bookkeeping. split_and!; auto. }
  destruct (parse_bjobs (stdout process)) as [records jobs]; simpl.
  destruct (_Stat jobs) as [e|stat] eqn:Hstat.
  - right; left. pose proof (_Stat_raises _ _ Hstat) as ->.
    eexists _, ValidationError. split_and!; [done | | by right].
    unfold same_bookkeeping. by destruct (decide (returncode process ≠ 0%Z)).
  - right; right. eexists _, stat. split_and!; [done | | done].
    unfold same_bookkeeping. by destruct (decide (returncode process ≠ 0%Z)).
Qed.

(** A cycle adds no job and no realization to the maps, and keeps the
    realization of each job. *)
Lemma poll_cycle_jobs_mono self process k i s :
  _jobs (poll_cycle self process).1 !! k = Some (i, s) →
  ∃ s0, _jobs self !! k = Some (i, s0).
Proof.
  destruct (poll_cycle_cases self process)
    as [[_ ->] | [(self1 & e & -> & (Hj & _) & _)
             | (self1 & stat & _ & (Hj & _) & ->)]]; simpl.
  - eauto.
  - rewrite Hj. eauto.
  - destruct (poll_stat_loop self1 stat) as [_ (-> & _)].
    intros [s0 H]%poll_jobs_jobs_mono. rewrite Hj in H. eauto.
Qed.

Lemma poll_cycle_inverse self process :
  mutually_inverse self → mutually_inverse (poll_cycle self process).1.
Proof.
  intros Hinv.
  assert (∀ a b, _jobs b = _jobs a → _iens2jobid b = _iens2jobid a →
                 mutually_inverse a → mutually_inverse b) as Hsame.
  { unfold mutually_inverse. intros a b -> ->. done. }
  destruct (poll_cycle_cases self process)
    as [[_ ->] | [(self1 & e & -> & (Hj & Hi & _) & _)
             | (self1 & stat & _ & (Hj & Hi & _) & ->)]]; simpl.
  - done.
  - by apply (Hsame self).
  - destruct (poll_stat_loop self1 stat) as [_ (Hj' & Hi' & _)].
    apply (Hsame (poll_jobs self1 stat).1); [done | done |].
    apply poll_jobs_inverse. by apply (Hsame self).
Qed.
End poll_facts.

Section cycle_facts.
Implicit Types (self : LsfDriver) (job : AnyJob) (job_id : string).

Lemma validate_AnyJob_Some (state : string) job :
  validate_AnyJob state = Some job →
  (state = "DONE"%string ∧ job = FinishedJob Finished_DONE)
  ∨ (state = "EXIT"%string ∧ job = FinishedJob Finished_EXIT)
  ∨ (state = "PEND"%string ∧ job = QueuedJob)
  ∨ (state = "RUN"%string ∧ job = RunningJob).
Proof.
  unfold validate_AnyJob. repeat case_decide; intros [= <-]; auto.
Qed.

(** The events a cycle puts on the queue are those of its loop. *)
Lemma poll_cycle_emitted self process :
  emitted self (poll_cycle self process).1 = []
  ∨ ∃ self1 stat,
      _Stat (parse_bjobs (stdout process)).2 = inr stat
      ∧ same_bookkeeping self self1
      ∧ poll_cycle self process = poll_stat self1 stat
      ∧ emitted self (poll_cycle self process).1
        = emitted self1 (poll_jobs self1 stat).1.
Proof.
  destruct (poll_cycle_cases self process)
    as [[_ ->] | [(self1 & e & -> & (_ & _ & Hq & _) & _)
                 | (self1 & stat & Hstat & Hsame & Heq)]]; simpl.
  - left. apply emitted_refl.
  - left. rewrite (emitted_same_queue_r self self1 self Hq). apply emitted_refl.
  - right. exists self1, stat. split_and!; [done | done | done |].
    rewrite Heq.
    destruct (poll_stat_loop self1 stat) as [_ (_ & _ & Hq' & _)].
    destruct Hsame as (_ & _ & Hq & _).
    rewrite (emitted_same_queue_r self _ _ Hq').
    by apply emitted_same_queue.
Qed.

(** Every event of the loop is about the realization of a job that was
    tracked and is reported. *)
Lemma poll_jobs_event_source (items : list (string * AnyJob)) self e :
  e ∈ emitted self (poll_jobs self items).1 →
  ∃ job_id job s0,
    (job_id, job) ∈ items ∧ _jobs self !! job_id = Some (event_iens e, s0).
Proof.
  revert self; induction items as [|[job_id job] items IH]; intros self; simpl.
  - rewrite emitted_refl. by intros ?%elem_of_nil.
  - pose proof (poll_job_queue self job_id job) as Hq.
    pose proof (poll_job_jobs_mono self job_id job) as Hmono.
    destruct (poll_job self job_id job) as [self1 [exn|]]; simpl in *.
    { rewrite (emitted_app _ _ _ Hq). by intros ?%elem_of_nil. }
    destruct (poll_jobs_queue items self1) as [evs2 Hq2].
    rewrite (emitted_app self _
               (option_list (transition_event (_jobs self) (job_id, job))
                ++ evs2)) by (by rewrite Hq2, Hq, <-app_assoc).
    intros [Hin | Hin]%elem_of_app.
    + exists job_id, job. unfold transition_event in Hin. simpl in Hin.
      destruct (_jobs self !! job_id) as [[i old]|];
        [| by apply elem_of_nil in Hin].
      exists old. split; [left |].
      destruct (decide (old = job_state job));
        [by apply elem_of_nil in Hin |].
      destruct (job_state job); simpl in Hin;
        first [ by apply elem_of_nil in Hin
              | by apply list_elem_of_singleton in Hin as -> ].
    + rewrite <-(emitted_app self1 _ evs2 Hq2) in Hin.
      destruct (IH self1 Hin) as (j & job' & s0 & Hitem & Hs0).
      destruct (Hmono _ _ _ Hs0) as [s1 Hs1].
      exists j, job', s1. split; [by right | done].
Qed.




Lemma same_bookkeeping_inverse self self' :
  same_bookkeeping self self' → mutually_inverse self →
  mutually_inverse self'.
Proof. unfold mutually_inverse. by intros (-> & -> & _). Qed.

(** ** Runs *)

Lemma step_jobs_mono self op k i s :
  is_submit op = false →
  _jobs (step self op).1 !! k = Some (i, s) →
  ∃ s0, _jobs self !! k = Some (i, s0).
Proof.
  destruct op as [| iens bkill | bjobs]; simpl; [done | |]; intros _.
  - destruct (kill_bookkeeping self iens bkill) as [_ (-> & _)]. eauto.
  - apply poll_cycle_jobs_mono.
Qed.

Lemma run_snoc self ops op : run self (ops ++ [op]) = (step (run self ops) op).1.
Proof. unfold run. by rewrite foldl_snoc. Qed.

Lemma run_cons self ops op : run self (op :: ops) = run (step self op).1 ops.
Proof. done. Qed.

(** A job that is not tracked stays so until the next [submit]. *)
Lemma run_untracked self ops k :
  Forall (λ op, is_submit op = false) ops →
  _jobs self !! k = None → _jobs (run self ops) !! k = None.
Proof.
  revert self; induction ops as [|op ops IH]; intros self; [done |].
  intros [Hop Hops]%Forall_cons Hk. rewrite run_cons. apply IH; [done |].
  destruct (_jobs (step self op).1 !! k) as [[i s]|] eqn:H; [| done].
  apply step_jobs_mono in H as [s0 H]; [congruence | done].
Qed.

Lemma submit_inverse self iens executable args name runpath process :
  mutually_inverse self →
  _iens2jobid self !! iens = None →
  (∀ job_id, Re.search_submitted (stdout process) = Some job_id →
             _jobs self !! job_id = None) →
  mutually_inverse (submit self iens executable args name runpath process).1.
Proof.
  intros Hinv Hi Hfresh.
  destruct (decide (returncode process ≠ 0%Z)) as [Hrc|Hrc].
  { destruct (submit_rejected self iens executable args name runpath process Hrc)
      as (self' & -> & Hsame).
    by apply (same_bookkeeping_inverse self). }
  assert (returncode process = 0%Z) as Hrc'
    by (by destruct (decide (returncode process = 0%Z))).
  destruct (Re.search_submitted (stdout process)) as [job_id|] eqn:Hs.
  - destruct (submit_accepted self iens executable args name runpath process
                job_id Hrc' Hs) as (self' & -> & Hj & Hi' & _).
    unfold mutually_inverse. simpl. rewrite Hj, Hi'.
    apply inverse_maps_insert; auto.
  - destruct (submit_not_understood self iens executable args name runpath
                process Hrc' Hs) as (self' & -> & Hsame).
    by apply (same_bookkeeping_inverse self).
Qed.

Lemma run_inverse self ops :
  mutually_inverse self →
  one_attempt_at_a_time self ops → fresh_identifiers self ops →
  mutually_inverse (run self ops).
Proof.
  revert self; induction ops as [|op ops IH]; intros self Hinv; [done |].
  rewrite run_cons. cbn [one_attempt_at_a_time fresh_identifiers].
  intros [Hone Hones] [Hfresh Hfreshs]. apply IH; [| done | done].
  destruct op as [iens executable args name runpath bsub | iens bkill | bjobs];
    simpl.
  - by apply submit_inverse.
  - destruct (kill_bookkeeping self iens bkill) as [_ Hsame].
    by apply (same_bookkeeping_inverse self).
  - by apply poll_cycle_inverse.
Qed.
End cycle_facts.

(** A state that [parse_bjobs] stores and [AnyJob] does not know ends the
    cycle: the five states [ZOMBI], [PDONE], [SSUSP], [USUSP] and [UNKWN]
    are in that case, whether the job they are reported for is tracked or
    not. *)
Lemma poll_cycle_raises_outside_AnyJob (self : LsfDriver)
    (process : Completed) (job_id state : string) :
  _jobs self ≠ ∅ →
  returncode process = 0%Z ∨ stderr_is_utf8 process = true →
  PyDict.get job_id (parse_bjobs (stdout process)).2 = Some state →
  validate_AnyJob state = None →
  (poll_cycle self process).2 = Some ValidationError.
Proof.
  intros Hne Hdecode Hget Hinvalid.
  destruct (poll_cycle_cases self process)
    as [[Hempty _]
       | [(self1 & e & -> & _ & [(_ & Hrc & Hutf) | [-> _]])
         | (self1 & stat & Hstat & _)]].
  - done.
  - destruct Hdecode; congruence.
  - done.
  - apply _Stat_inr in Hstat. apply get_elem_of in Hget.
    apply list_elem_of_lookup in Hget as [n Hn].
    destruct (Forall2_lookup_l _ _ _ _ _ Hstat Hn) as (item & _ & _ & Hvalid).
    simpl in Hvalid. congruence.
Qed.

Lemma outside_AnyJob (state : string) :
  state ∈ ["ZOMBI"; "PDONE"; "SSUSP"; "USUSP"; "UNKWN"]%string →
  state ∈ JobState_args ∧ validate_AnyJob state = None.
Proof.
  intros H. repeat (apply elem_of_cons in H as [-> | H]);
    [.. | by apply elem_of_nil in H];
    (split; [| vm_compute; reflexivity]);
    unfold JobState_args; repeat (first [left | right]).
Qed.

(** * The claims about [poll] *)

(** C1. The driver tracks job 1 and [bjobs] reports it as [SSUSP]. That is
    one of the nine states [parse_bjobs] knows, so nothing is logged and
    the entry is kept; [_Stat] knows four states only, and the cycle ends
    with its [ValidationError]. *)
Theorem poll_raises_on_suspended_job :
  _jobs Scenario.tracking_1 !! "1"%string = Some (0%Z, PEND)
  ∧ parse_bjobs "1 user SSUSP normal" = ([], [("1", "SSUSP")]%string)
  ∧ (poll_cycle Scenario.tracking_1
       (Scenario.exits_0 "1 user SSUSP normal")).2
    = Some ValidationError.
Proof. split_and!; vm_compute; reflexivity. Qed.

(** C2, amended. Every [FinishedEvent] of a cycle is about a realization
    whose tracked job [bjobs] reported as [EXIT] or as [DONE]: for [EXIT]
    the return code is 1 and [aborted] is true, for [DONE] the return code
    is 0 and [aborted] is false. The flag tells a failed job from a
    successful one; whether [kill] was called plays no part. *)
Theorem finished_aborted_iff_exit (self : LsfDriver) (process : Completed)
    (iens rc : Z) (ab : bool) :
  FinishedEvent iens rc ab ∈ emitted self (poll_cycle self process).1 →
  ∃ job_id state,
    PyDict.get job_id (parse_bjobs (stdout process)).2 = Some state
    ∧ (∃ s0, _jobs self !! job_id = Some (iens, s0))
    ∧ ((state = "EXIT"%string ∧ rc = 1%Z ∧ ab = true)
       ∨ (state = "DONE"%string ∧ rc = 0%Z ∧ ab = false)).
Proof.
  destruct (poll_cycle_emitted self process)
    as [-> | (self1 & stat & Hstat & (Hj & _) & _ & ->)];
    [by intros ?%elem_of_nil |].
  intros (_ & job_id & job & Hin & Htracked & _ & Hjob)%poll_jobs_finished.
  destruct (_Stat_elem_of _ _ _ _ Hstat Hin) as (state & Hparsed & Hvalid).
  exists job_id, state. split_and!.
  - apply elem_of_get; [apply parse_bjobs_keys | done].
  - by rewrite <-Hj.
  - apply validate_AnyJob_Some in Hvalid.
    destruct Hjob as [(-> & -> & ->) | (-> & -> & ->)];
      destruct Hvalid as [[-> [=]] | [[-> [=]] | [[-> [=]] | [-> [=]]]]];
      auto.
Qed.

Lemma finished_aborted_iff_exit_witness :
  ∃ job_id state,
    PyDict.get job_id
      (parse_bjobs (stdout (Scenario.exits_0 "1 user EXIT normal"))).2
    = Some state
    ∧ (∃ s0, _jobs Scenario.tracking_1 !! job_id = Some (0%Z, s0))
    ∧ ((state = "EXIT"%string ∧ 1%Z = 1%Z ∧ true = true)
       ∨ (state = "DONE"%string ∧ 1%Z = 0%Z ∧ true = false)).
Proof.
  apply (finished_aborted_iff_exit Scenario.tracking_1
           (Scenario.exits_0 "1 user EXIT normal") 0 1 true).
  vm_compute. left.
Defined.

(** C2 as stated fails: realization 0 is submitted and its job ends with
    [EXIT] by itself; [kill] is never called, and the event says
    [aborted]. *)
Lemma aborted_without_kill :
  ¬ (∀ iens rc ab,
       FinishedEvent iens rc ab
         ∈ event_queue
             (run Scenario.fresh
                [Scenario.submit_0; Poll (Scenario.exits_0 "1 user EXIT normal")]) →
       (ab = true
        ↔ kill_requested
            [Scenario.submit_0; Poll (Scenario.exits_0 "1 user EXIT normal")]
            iens)).
Proof.
  intros H. specialize (H 0%Z 1%Z true).
  destruct H as [H _]; [vm_compute; left |].
  destruct (H eq_refl) as [bkill Hin].
  apply elem_of_cons in Hin as [[=] | Hin].
  apply elem_of_cons in Hin as [[=] | Hin].
  by apply elem_of_nil in Hin.
Qed.




(** C5. When a cycle puts a [FinishedEvent] for a realization, the
    realization has no job identifier when the cycle ends, and the job it
    was tracked as is gone from the map of jobs. The job stays untracked
    through every later cycle and [kill], up to the next [submit]: a report
    about it is skipped there, so no further event comes from it. *)
Theorem poll_forgets_finished (self : LsfDriver) (process : Completed)
    (iens rc : Z) (ab : bool) :
  FinishedEvent iens rc ab ∈ emitted self (poll_cycle self process).1 →
  _iens2jobid (poll_cycle self process).1 !! iens = None
  ∧ ∃ job_id,
      (∃ s0, _jobs self !! job_id = Some (iens, s0))
      ∧ _jobs (poll_cycle self process).1 !! job_id = None
      ∧ ∀ ops,
          Forall (λ op, is_submit op = false) ops →
          _jobs (run (poll_cycle self process).1 ops) !! job_id = None
          ∧ ∀ job,
              poll_job (run (poll_cycle self process).1 ops) job_id job
              = (run (poll_cycle self process).1 ops, None).
Proof.
  destruct (poll_cycle_emitted self process)
    as [-> | (self1 & stat & Hstat & (Hj & _) & Heq & ->)];
    [by intros ?%elem_of_nil |].
  intros (Hi & job_id & job & Hin & Htracked & Hgone & _)%poll_jobs_finished.
  rewrite Heq.
  destruct (poll_stat_loop self1 stat) as [_ (Hj' & Hi' & _)].
  split; [by rewrite Hi' |]. exists job_id.
  assert (_jobs (poll_stat self1 stat).1 !! job_id = None) as Hnone
    by (by rewrite Hj').
  split_and!; [by rewrite <-Hj | done |].
  intros ops Hops.
  pose proof (run_untracked _ ops job_id Hops Hnone) as Hlater.
  split; [done |]. intros job'. by apply poll_job_untracked.
Qed.

Lemma poll_forgets_finished_witness :
  _iens2jobid
    (poll_cycle Scenario.running_1 (Scenario.exits_0 "1 user DONE normal")).1
    !! 0%Z = None.
Proof.
  apply (poll_forgets_finished Scenario.running_1
           (Scenario.exits_0 "1 user DONE normal") 0 0 false).
  vm_compute. left.
Defined.

Section tolerance.
Implicit Types (self : LsfDriver).


End tolerance.



(** C8, amended. Start from a new driver and run any sequence of [submit],
    [kill] and cycles of [poll] in which every [submit] is for a
    realization without a tracked attempt and no [bsub] hands out an
    identifier that is still tracked. Then the two maps of the driver are
    inverse to each other: a job identifier belongs to one realization and
    a realization has one job identifier. *)
Theorem maps_stay_inverse
    (queue_name bsub_cmd bjobs_cmd bkill_cmd : option string)
    (which : string → option string) (records : list LogRecord)
    (fs : gmap (string * string) string) (ops : list Op) :
  one_attempt_at_a_time
    (init queue_name bsub_cmd bjobs_cmd bkill_cmd which records fs) ops →
  fresh_identifiers
    (init queue_name bsub_cmd bjobs_cmd bkill_cmd which records fs) ops →
  mutually_inverse
    (run (init queue_name bsub_cmd bjobs_cmd bkill_cmd which records fs) ops).
Proof.
  apply run_inverse. intros k i. simpl. rewrite !lookup_empty.
  split; [by intros [? ?] | done].
Qed.

Lemma maps_stay_inverse_witness :
  mutually_inverse
    (run Scenario.fresh
       [Scenario.submit_0; Poll (Scenario.exits_0 "1 user RUN normal");
        Kill 0 (Scenario.exits_0 "Job <1> is being terminated");
        Poll (Scenario.exits_0 "1 user EXIT normal"); Scenario.submit_0]).
Proof.
  apply (maps_stay_inverse None None None None (λ _, None) [] ∅).
  - vm_compute. repeat split.
  - cbn [fresh_identifiers].
    split_and!; try done; intros job_id _; vm_compute; reflexivity.
Defined.

(** C8 as stated fails: two realizations are submitted, each for the first
    time, and [bsub] answers both with the identifier 1. The map of jobs
    gives job 1 to realization 1, and realization 0 still has it as its
    identifier. *)
Lemma same_identifier_for_two_realizations :
  one_attempt_at_a_time Scenario.fresh [Scenario.submit_0; Scenario.submit_1]
  ∧ ¬ mutually_inverse
        (run Scenario.fresh [Scenario.submit_0; Scenario.submit_1]).
Proof.
  split.
  - vm_compute. repeat split.
  - intros H. destruct (H "1"%string 0%Z) as [_ H0].
    destruct H0 as [s Hs]; [vm_compute; reflexivity |].
    vm_compute in Hs. discriminate Hs.
Qed.

(** * Further properties of the driver *)

(** ** What [parse_bjobs] logs and stores *)

Section parse_more.
Import Text.





End parse_more.




(** ** When a cycle raises *)

Section raising.
Implicit Types (self : LsfDriver) (process : Completed).

Lemma validate_AnyJob_is_Some (state : string) :
  is_Some (validate_AnyJob state) ↔ state ∈ AnyJob_states.
Proof.
  unfold validate_AnyJob, AnyJob_states. split.
  - repeat case_decide; subst; intros [job [=]];
      repeat (first [left | right]).
  - intros H. repeat (apply elem_of_cons in H as [-> | H]);
      [.. | by apply elem_of_nil in H]; by eexists.
Qed.

Lemma Stat_is_inr (jobs : list (string * string)) :
  (∃ stat, _Stat jobs = inr stat) ↔ Forall (λ kv, kv.2 ∈ AnyJob_states) jobs.
Proof.
  unfold _Stat.
  assert (is_Some (mapM (λ kv, pair kv.1 <$> validate_AnyJob kv.2) jobs)
          ↔ Forall (λ kv : string * string, kv.2 ∈ AnyJob_states) jobs) as <-.
  { rewrite mapM_is_Some. apply Forall_proper; [| done].
    intros [k v]. simpl. rewrite <-validate_AnyJob_is_Some.
    unfold compose. simpl. by rewrite fmap_is_Some. }
  destruct (mapM _ jobs) as [stat|]; split.
  - by eexists.
  - eauto.
  - by intros [? [=]].
  - by intros [? [=]].
Qed.

Lemma poll_cycle_undecodable self process :
  _jobs self ≠ ∅ → returncode process ≠ 0%Z →
  stderr_is_utf8 process = false →
  poll_cycle self process = (self, Some UnicodeDecodeError).
Proof.
  intros Hne Hrc Hutf. unfold poll_cycle.
  rewrite decide_False by done. by rewrite decide_True by done.
Qed.

Lemma poll_cycle_decoded self process :
  _jobs self ≠ ∅ →
  returncode process = 0%Z ∨ stderr_is_utf8 process = true →
  ∃ self1,
    same_bookkeeping self self1
    ∧ poll_cycle self process
      = match _Stat (parse_bjobs (stdout process)).2 with
        | inl e => (self1, Some e)
        | inr stat => poll_stat self1 stat
        end.
Proof.
  intros Hne Hdecode. unfold poll_cycle.
  rewrite decide_False by done.
  rewrite decide_False by (intros [? ?]; destruct Hdecode; congruence).
  destruct (parse_bjobs (stdout process)) as [records jobs]; simpl.
  eexists. split; [| done].
  unfold same_bookkeeping. by destruct (decide (returncode process ≠ 0%Z)).
Qed.


End raising.

(** X3. The model [_Stat] accepts what [parse_bjobs] returns exactly when
    every state in it is [DONE], [EXIT], [PEND] or [RUN]; what it returns
    then has the same keys in the same order. Otherwise it raises its
    [ValidationError]. *)
Theorem Stat_accepts_four_states (jobs : list (string * string)) :
  (Forall (λ kv, kv.2 ∈ AnyJob_states) jobs →
   ∃ stat, _Stat jobs = inr stat ∧ PyDict.keys stat = PyDict.keys jobs)
  ∧ (¬ Forall (λ kv, kv.2 ∈ AnyJob_states) jobs →
     _Stat jobs = inl ValidationError).
Proof.
  split.
  - intros [stat Hstat]%Stat_is_inr. exists stat.
    split; [done | by apply _Stat_keys].
  - intros Hnot. destruct (_Stat jobs) as [e|stat] eqn:Hstat.
    + by rewrite (_Stat_raises _ _ Hstat).
    + destruct Hnot. apply Stat_is_inr. eauto.
Qed.

Lemma Stat_accepts_four_states_witness :
  (∃ stat,
     _Stat [("1", "RUN"); ("2", "DONE")]%string = inr stat
     ∧ PyDict.keys stat = PyDict.keys [("1", "RUN"); ("2", "DONE")]%string)
  ∧ _Stat [("1", "RUN"); ("2", "ZOMBI")]%string = inl ValidationError.
Proof.
  split.
  - apply (Stat_accepts_four_states [("1", "RUN"); ("2", "DONE")]%string).
    repeat constructor.
  - apply (Stat_accepts_four_states [("1", "RUN"); ("2", "ZOMBI")]%string).
    intros H. apply Forall_cons in H as [_ H]. apply Forall_cons in H as [H _].
    simpl in H. unfold AnyJob_states in H.
    repeat (apply elem_of_cons in H as [[=] | H]). by apply elem_of_nil in H.
Defined.





(** ** A [FinishedEvent] ends the events of an attempt *)

Section attempts.
Implicit Types (self : LsfDriver) (events : list Event).

Lemma finished_last_app iens events1 events2 :
  finished_last iens events1 → finished_last iens events2 →
  ((∃ rc ab, FinishedEvent iens rc ab ∈ events1) → quiet iens events2) →
  finished_last iens (events1 ++ events2).
Proof.
  intros H1 H2 Hcross. induction events1 as [|e events1 IH]; [done |].
  simpl in *. destruct H1 as [He H1]. split.
  - destruct e as [|i rc ab]; [done |]. intros ->.
    apply Forall_app. split; [by apply He |].
    apply Hcross. exists rc, ab. left.
  - apply IH; [done |]. intros (rc & ab & Hin). apply Hcross.
    exists rc, ab. by right.
Qed.

Lemma finished_last_split iens events1 events2 rc ab :
  finished_last iens (events1 ++ FinishedEvent iens rc ab :: events2) →
  quiet iens events2.
Proof.
  induction events1 as [|e events1 IH]; simpl.
  - intros [H _]. by apply H.
  - intros [_ H]. by apply IH.
Qed.

Lemma submit_queue self iens executable args name runpath process :
  event_queue (submit self iens executable args name runpath process).1
  = event_queue self.
Proof.
  unfold submit. destruct (decide (returncode process ≠ 0%Z)); [done |].
  destruct (Re.search_submitted (stdout process)); [| done].
  by destruct runpath.
Qed.

Lemma step_queue self op :
  ∃ events, event_queue (step self op).1 = event_queue self ++ events.
Proof.
  destruct op as [iens executable args name runpath bsub | iens bkill | bjobs];
    simpl.
  - exists []. by rewrite app_nil_r, submit_queue.
  - exists []. rewrite app_nil_r.
    by destruct (kill_bookkeeping self iens bkill) as [_ (_ & _ & -> & _)].
  - destruct (poll_cycle_cases self bjobs)
      as [[_ ->] | [(self1 & e & -> & (_ & _ & Hq & _) & _)
                   | (self1 & stat & _ & (_ & _ & Hq & _) & ->)]]; simpl.
    + exists []. by rewrite app_nil_r.
    + exists []. by rewrite app_nil_r.
    + destruct (poll_stat_loop self1 stat) as [_ (_ & _ & -> & _)].
      rewrite <-Hq. apply poll_jobs_queue.
Qed.

Lemma run_queue self ops :
  ∃ events, event_queue (run self ops) = event_queue self ++ events.
Proof.
  revert self; induction ops as [|op ops IH]; intros self.
  - exists []. by rewrite app_nil_r.
  - rewrite run_cons. destruct (step_queue self op) as [evs1 H1].
    destruct (IH (step self op).1) as [evs2 H2].
    exists (evs1 ++ evs2). by rewrite H2, H1, <-app_assoc.
Qed.

Lemma emitted_run_cons self op ops :
  emitted self (run self (op :: ops))
  = emitted self (step self op).1
    ++ emitted (step self op).1 (run (step self op).1 ops).
Proof.
  rewrite run_cons. destruct (step_queue self op) as [evs1 H1].
  destruct (run_queue (step self op).1 ops) as [evs2 H2].
  rewrite (emitted_app _ _ _ H1), (emitted_app _ _ _ H2).
  apply emitted_app. by rewrite H2, H1, <-app_assoc.
Qed.

(** A realization without a job identifier gets no event from the loop. *)
Lemma poll_jobs_quiet (items : list (string * AnyJob)) self iens :
  mutually_inverse self → _iens2jobid self !! iens = None →
  quiet iens (emitted self (poll_jobs self items).1).
Proof.
  intros Hinv Hi. apply Forall_forall. intros e He Heq.
  destruct (poll_jobs_event_source items self e He) as (j & job & s0 & _ & Hs0).
  rewrite Heq in Hs0.
  assert (_iens2jobid self !! iens = Some j) by (apply Hinv; eauto).
  congruence.
Qed.

Lemma poll_jobs_finished_last (items : list (string * AnyJob)) self iens :
  mutually_inverse self →
  finished_last iens (emitted self (poll_jobs self items).1).
Proof.
  revert self; induction items as [|[job_id job] items IH]; intros self Hinv;
    simpl.
  - by rewrite emitted_refl.
  - pose proof (poll_job_queue self job_id job) as Hq.
    pose proof (poll_job_finished self job_id job iens) as Hfin.
    destruct (poll_job_inverse self job_id job Hinv) as [Hnone Hinv1].
    destruct (poll_job self job_id job) as [self1 [e|]]; simpl in *; [done |].
    destruct (poll_jobs_queue items self1) as [evs2 Hq2].
    rewrite (emitted_app self _
               (option_list (transition_event (_jobs self) (job_id, job))
                ++ evs2)) by (by rewrite Hq2, Hq, <-app_assoc).
    rewrite <-(emitted_app self1 _ evs2 Hq2).
    apply finished_last_app.
    + destruct (transition_event (_jobs self) (job_id, job)) as [[|i rc ab]|];
        simpl; [done | | done].
      split; [| done]. intros _. apply Forall_nil_2.
    + by apply IH.
    + intros (rc & ab & Hin).
      destruct (Hfin rc ab Hin eq_refl) as (_ & Hi & _).
      by apply poll_jobs_quiet.
Qed.

Lemma step_finished_last self op iens :
  mutually_inverse self → finished_last iens (emitted self (step self op).1).
Proof.
  intros Hinv.
  destruct op as [i executable args name runpath bsub | i bkill | bjobs].
  - simpl. rewrite (emitted_same_queue_r self _ self) by apply submit_queue.
    by rewrite emitted_refl.
  - simpl.
    destruct (kill_bookkeeping self i bkill) as [_ (_ & _ & Hq & _)].
    rewrite (emitted_same_queue_r self _ self Hq). by rewrite emitted_refl.
  - simpl. destruct (poll_cycle_emitted self bjobs)
      as [-> | (self1 & stat & _ & Hsame & _ & ->)]; [done |].
    apply poll_jobs_finished_last. by apply (same_bookkeeping_inverse self).
Qed.
End attempts.

Section attempts_runs.
Implicit Types (self : LsfDriver) (events : list Event).

Lemma poll_cycle_iens_mono self process i x :
  _iens2jobid (poll_cycle self process).1 !! i = Some x →
  _iens2jobid self !! i = Some x.
Proof.
  destruct (poll_cycle_cases self process)
    as [[_ ->] | [(self1 & e & -> & (_ & Hi & _) & _)
                 | (self1 & stat & _ & (_ & Hi & _) & ->)]]; simpl.
  - done.
  - by rewrite Hi.
  - destruct (poll_stat_loop self1 stat) as [_ (_ & -> & _)].
    intros H%poll_jobs_iens_mono. by rewrite Hi in H.
Qed.

Lemma submit_iens2jobid_other self i executable args name runpath process iens :
  i ≠ iens →
  _iens2jobid (submit self i executable args name runpath process).1 !! iens
  = _iens2jobid self !! iens.
Proof.
  intros Hne. unfold submit.
  destruct (decide (returncode process ≠ 0%Z)); [done |].
  destruct (Re.search_submitted (stdout process)); [| done].
  destruct runpath; simpl; by rewrite lookup_insert_ne.
Qed.

Lemma step_inverse self op :
  mutually_inverse self →
  match op with
  | Submit iens _ _ _ _ _ => _iens2jobid self !! iens = None
  | _ => True
  end →
  match op with
  | Submit _ _ _ _ _ bsub =>
      ∀ job_id, Re.search_submitted (stdout bsub) = Some job_id →
                _jobs self !! job_id = None
  | _ => True
  end →
  mutually_inverse (step self op).1.
Proof.
  intros Hinv Hone Hfresh.
  destruct op as [iens executable args name runpath bsub | iens bkill | bjobs];
    simpl.
  - by apply submit_inverse.
  - destruct (kill_bookkeeping self iens bkill) as [_ Hsame].
    by apply (same_bookkeeping_inverse self).
  - by apply poll_cycle_inverse.
Qed.

(** The events of one call are not about a realization that has no job
    identifier and is not the one submitted, and the realization has no
    identifier afterwards. *)
Lemma step_quiet self op iens :
  mutually_inverse self → _iens2jobid self !! iens = None →
  ¬ submit_requested [op] iens →
  quiet iens (emitted self (step self op).1)
  ∧ _iens2jobid (step self op).1 !! iens = None.
Proof.
  intros Hinv Hi Hop.
  destruct op as [i executable args name runpath bsub | i bkill | bjobs];
    simpl.
  - rewrite (emitted_same_queue_r self _ self) by apply submit_queue.
    rewrite emitted_refl. split; [apply Forall_nil_2 |].
    rewrite submit_iens2jobid_other; [done |]. intros ->. apply Hop.
    exists executable, args, name, runpath, bsub. left.
  - destruct (kill_bookkeeping self i bkill) as [_ (_ & Hi' & Hq & _)].
    rewrite (emitted_same_queue_r self _ self Hq), emitted_refl, Hi'.
    split; [apply Forall_nil_2 | done].
  - split.
    + destruct (poll_cycle_emitted self bjobs)
        as [-> | (self1 & stat & _ & Hsame & _ & ->)]; [apply Forall_nil_2 |].
      apply poll_jobs_quiet; [by apply (same_bookkeeping_inverse self) |].
      destruct Hsame as (_ & -> & _). done.
    + destruct (_iens2jobid (poll_cycle self bjobs).1 !! iens) eqn:H; [| done].
      apply poll_cycle_iens_mono in H. congruence.
Qed.

Lemma step_finished_forgets self op iens rc ab :
  FinishedEvent iens rc ab ∈ emitted self (step self op).1 →
  _iens2jobid (step self op).1 !! iens = None.
Proof.
  destruct op as [i executable args name runpath bsub | i bkill | bjobs];
    simpl.
  - rewrite (emitted_same_queue_r self _ self) by apply submit_queue.
    rewrite emitted_refl. by intros ?%elem_of_nil.
  - destruct (kill_bookkeeping self i bkill) as [_ (_ & _ & Hq & _)].
    rewrite (emitted_same_queue_r self _ self Hq), emitted_refl.
    by intros ?%elem_of_nil.
  - destruct (poll_cycle_emitted self bjobs)
      as [-> | (self1 & stat & _ & _ & -> & ->)]; [by intros ?%elem_of_nil |].
    intros [Hi _]%poll_jobs_finished.
    by destruct (poll_stat_loop self1 stat) as [_ (_ & -> & _)].
Qed.

Lemma not_submit_requested_cons op ops iens :
  ¬ submit_requested (op :: ops) iens →
  ¬ submit_requested [op] iens ∧ ¬ submit_requested ops iens.
Proof.
  unfold submit_requested. intros Hnot.
  split; intros (executable & args & name & runpath & bsub & Hin);
    apply Hnot; exists executable, args, name, runpath, bsub.
  - apply list_elem_of_singleton in Hin as ->. left.
  - by right.
Qed.

Lemma run_quiet self ops iens :
  mutually_inverse self →
  one_attempt_at_a_time self ops → fresh_identifiers self ops →
  ¬ submit_requested ops iens →
  _iens2jobid self !! iens = None →
  quiet iens (emitted self (run self ops)).
Proof.
  revert self; induction ops as [|op ops IH]; intros self Hinv.
  - intros _ _ _ _. rewrite emitted_refl. apply Forall_nil_2.
  - cbn [one_attempt_at_a_time fresh_identifiers].
    intros [Hone Hones] [Hfresh Hfreshs] [Hop Hops]%not_submit_requested_cons Hi.
    rewrite emitted_run_cons.
    destruct (step_quiet self op iens Hinv Hi Hop) as [Hquiet Hi1].
    apply Forall_app. split; [done |].
    apply IH; [by apply step_inverse | done | done | done | done].
Qed.

Lemma run_finished_last self ops iens :
  mutually_inverse self →
  one_attempt_at_a_time self ops → fresh_identifiers self ops →
  ¬ submit_requested ops iens →
  finished_last iens (emitted self (run self ops)).
Proof.
  revert self; induction ops as [|op ops IH]; intros self Hinv.
  - intros _ _ _. by rewrite emitted_refl.
  - cbn [one_attempt_at_a_time fresh_identifiers].
    intros [Hone Hones] [Hfresh Hfreshs] [Hop Hops]%not_submit_requested_cons.
    rewrite emitted_run_cons.
    pose proof (step_inverse self op Hinv Hone Hfresh) as Hinv1.
    apply finished_last_app.
    + by apply step_finished_last.
    + by apply IH.
    + intros (rc & ab & Hin). apply run_quiet; try done.
      by eapply step_finished_forgets.
Qed.
End attempts_runs.

(** X6. Take a driver whose two maps are inverse to each other and a run
    of [submit], [kill] and cycles of [poll] in which no realization is
    submitted while it is tracked, no [bsub] hands out a tracked
    identifier and the realization [iens] is not submitted. In the events
    of the run a [FinishedEvent] of [iens] is followed by no event about
    [iens]: an attempt has one [FinishedEvent] at most, and no
    [StartedEvent] after it. *)
Theorem finished_event_ends_the_attempt (self : LsfDriver) (ops : list Op)
    (iens rc : Z) (ab : bool) (before after : list Event) :
  mutually_inverse self →
  one_attempt_at_a_time self ops → fresh_identifiers self ops →
  ¬ submit_requested ops iens →
  emitted self (run self ops) = before ++ FinishedEvent iens rc ab :: after →
  quiet iens after.
Proof.
  intros Hinv Hone Hfresh Hnot Heq.
  pose proof (run_finished_last self ops iens Hinv Hone Hfresh Hnot) as Hlast.
  rewrite Heq in Hlast. by eapply finished_last_split.
Qed.

Lemma finished_event_ends_the_attempt_witness :
  quiet 0 [StartedEvent 1].
Proof.
  apply (finished_event_ends_the_attempt Scenario.running_1
           [Submit 1 "job.sh" [] "dummy" None
              (Scenario.exits_0 "Job <2> is submitted to default queue");
            Poll (Scenario.exits_0
                    ("1 user DONE normal" +:+ Scenario.newline
                     +:+ "2 user RUN normal"));
            Poll (Scenario.exits_0 "1 user DONE normal")]
           0 0 false []).
  - apply (run_inverse Scenario.fresh
             [Scenario.submit_0; Poll (Scenario.exits_0 "1 user RUN normal")]).
    + intros k i. vm_compute. split; [by intros [? ?] | done].
    + vm_compute. repeat split.
    + cbn [fresh_identifiers].
      split_and!; try done; intros job_id _; vm_compute; reflexivity.
  - vm_compute. repeat split.
  - cbn [fresh_identifiers].
    split_and!; try done; intros job_id; vm_compute; by intros [= <-].
  - intros (executable & args & name & runpath & bsub & Hin).
    repeat (apply elem_of_cons in Hin as [[=] | Hin]).
    by apply elem_of_nil in Hin.
  - vm_compute. reflexivity.
Defined.

(** ** What a run tracks, writes and reports *)

Section runs_more.
Implicit Types (self : LsfDriver).

Lemma submit_jobs_lookup self iens executable args name runpath process k i s :
  _jobs (submit self iens executable args name runpath process).1 !! k
  = Some (i, s) →
  _jobs self !! k = Some (i, s)
  ∨ (i = iens ∧ s = PEND
     ∧ Re.search_submitted (stdout process) = Some k).
Proof.
  unfold submit. destruct (decide (returncode process ≠ 0%Z)); [by left |].
  destruct (Re.search_submitted (stdout process)) as [job_id|]; [| by left].
  assert (∀ self',
            _jobs self' = _jobs self →
            <[job_id:=(iens, PEND)]> (_jobs self') !! k = Some (i, s) →
            _jobs self !! k = Some (i, s)
            ∨ (i = iens ∧ s = PEND ∧ Some job_id = Some k)) as H.
  { intros self' ->. rewrite lookup_insert.
    destruct (decide (job_id = k)) as [->|]; [| by left].
    intros [= <- <-]. by right. }
  destruct runpath; simpl; by apply H.
Qed.

Lemma submit_iens2jobid_lookup self iens executable args name runpath process
    i x :
  _iens2jobid (submit self iens executable args name runpath process).1 !! i
  = Some x →
  _iens2jobid self !! i = Some x
  ∨ (i = iens ∧ Re.search_submitted (stdout process) = Some x).
Proof.
  unfold submit. destruct (decide (returncode process ≠ 0%Z)); [by left |].
  destruct (Re.search_submitted (stdout process)) as [job_id|]; [| by left].
  assert (<[iens:=job_id]> (_iens2jobid self) !! i = Some x →
          _iens2jobid self !! i = Some x
          ∨ (i = iens ∧ Some job_id = Some x)) as H.
  { rewrite lookup_insert. destruct (decide (iens = i)) as [->|]; [| by left].
    intros [= <-]. by right. }
  destruct runpath; simpl; by apply H.
Qed.

Lemma step_jobs_lookup self op k i s :
  _jobs (step self op).1 !! k = Some (i, s) →
  (∃ s0, _jobs self !! k = Some (i, s0))
  ∨ (is_job_number k ∧ submit_requested [op] i).
Proof.
  destruct op as [iens executable args name runpath bsub | iens bkill | bjobs];
    simpl.
  - intros [? | (-> & -> & Hs)]%submit_jobs_lookup; [eauto |]. right. split.
    + by apply search_submitted_digits in Hs.
    + exists executable, args, name, runpath, bsub. left.
  - destruct (kill_bookkeeping self iens bkill) as [_ (-> & _)]. eauto.
  - intros ?%poll_cycle_jobs_mono. by left.
Qed.

Lemma step_iens2jobid_lookup self op i x :
  _iens2jobid (step self op).1 !! i = Some x →
  _iens2jobid self !! i = Some x ∨ is_job_number x.
Proof.
  destruct op as [iens executable args name runpath bsub | iens bkill | bjobs];
    simpl.
  - intros [? | (-> & Hs)]%submit_iens2jobid_lookup; [by left |]. right.
    by apply search_submitted_digits in Hs.
  - destruct (kill_bookkeeping self iens bkill) as [_ (_ & -> & _)]. eauto.
  - intros ?%poll_cycle_iens_mono. by left.
Qed.

Lemma poll_cycle_files self process :
  files (poll_cycle self process).1 = files self.
Proof.
  destruct (poll_cycle_cases self process)
    as [[_ ->] | [(self1 & e & -> & (_ & _ & _ & Hf) & _)
                 | (self1 & stat & _ & (_ & _ & _ & Hf) & ->)]]; simpl.
  - done.
  - done.
  - destruct (poll_stat_loop self1 stat) as [_ (_ & _ & _ & ->)].
    by rewrite poll_jobs_files.
Qed.

Lemma submit_files self iens executable args name runpath process path :
  files (submit self iens executable args name runpath process).1 !! path
  ≠ files self !! path →
  ∃ dir job_id,
    runpath = Some dir ∧ path = (dir, LSF_INFO_JSON_FILENAME)
    ∧ is_job_number job_id
    ∧ files (submit self iens executable args name runpath process).1 !! path
      = Some (json_dumps_job_id job_id).
Proof.
  unfold submit. destruct (decide (returncode process ≠ 0%Z)); [done |].
  destruct (Re.search_submitted (stdout process)) as [job_id|] eqn:Hs;
    [| done].
  destruct runpath as [dir|]; simpl; [| done].
  rewrite lookup_insert.
  destruct (decide ((dir, LSF_INFO_JSON_FILENAME) = path)) as [<-|]; [| done].
  intros _. exists dir, job_id. split_and!; try done.
  by apply search_submitted_digits in Hs.
Qed.

Lemma poll_cycle_event_source self process e :
  e ∈ emitted self (poll_cycle self process).1 →
  ∃ job_id s0, _jobs self !! job_id = Some (event_iens e, s0).
Proof.
  destruct (poll_cycle_emitted self process)
    as [-> | (self1 & stat & _ & (Hj & _) & _ & ->)];
    [by intros ?%elem_of_nil |].
  intros (j & job & s0 & _ & Hs0)%poll_jobs_event_source.
  rewrite Hj in Hs0. eauto.
Qed.

Lemma step_event_source self op e :
  e ∈ emitted self (step self op).1 →
  ∃ job_id s0, _jobs self !! job_id = Some (event_iens e, s0).
Proof.
  destruct op as [iens executable args name runpath bsub | iens bkill | bjobs];
    simpl.
  - rewrite (emitted_same_queue_r self _ self) by apply submit_queue.
    rewrite emitted_refl. by intros ?%elem_of_nil.
  - destruct (kill_bookkeeping self iens bkill) as [_ (_ & _ & Hq & _)].
    rewrite (emitted_same_queue_r self _ self Hq), emitted_refl.
    by intros ?%elem_of_nil.
  - apply poll_cycle_event_source.
Qed.

Lemma submit_requested_cons op ops iens :
  submit_requested [op] iens ∨ submit_requested ops iens →
  submit_requested (op :: ops) iens.
Proof.
  unfold submit_requested.
  intros [(executable & args & name & runpath & bsub & Hin)
         | (executable & args & name & runpath & bsub & Hin)];
    exists executable, args, name, runpath, bsub.
  - apply list_elem_of_singleton in Hin as ->. left.
  - by right.
Qed.
End runs_more.

(** X7. Whatever the calls of a run of a new driver and whatever the
    processes answer, every job identifier in the two maps of the driver is
    a run of one decimal digit or more. (This is what lets [kill] put the
    identifier into the pattern it matches the output of [bkill] with.) *)
Theorem tracked_identifiers_are_numbers
    (queue_name bsub_cmd bjobs_cmd bkill_cmd : option string)
    (which : string → option string) (records : list LogRecord)
    (fs : gmap (string * string) string) (ops : list Op) :
  (∀ job_id iens state,
     _jobs (run (init queue_name bsub_cmd bjobs_cmd bkill_cmd which records fs)
              ops) !! job_id = Some (iens, state) →
     is_job_number job_id)
  ∧ (∀ iens job_id,
       _iens2jobid
         (run (init queue_name bsub_cmd bjobs_cmd bkill_cmd which records fs)
            ops) !! iens = Some job_id →
       is_job_number job_id).
Proof.
  induction ops as [|op ops [IHj IHi]] using rev_ind.
  - split; intros *; simpl; by rewrite lookup_empty.
  - rewrite run_snoc. split.
    + intros job_id iens state [[s0 H] | [H _]]%step_jobs_lookup; eauto.
    + intros iens job_id [H | H]%step_iens2jobid_lookup; eauto.
Qed.

(** X8. A run changes no file but [lsf_info.json] in a directory that was
    given to [submit] as run path, and what such a file then holds is the
    JSON object with the key [job_id] and a run of digits as its value. *)
Theorem only_the_metadata_file_is_written (self : LsfDriver) (ops : list Op)
    (dir name : string) :
  files (run self ops) !! (dir, name) ≠ files self !! (dir, name) →
  name = LSF_INFO_JSON_FILENAME
  ∧ submitted_with_runpath ops dir
  ∧ ∃ job_id,
      is_job_number job_id
      ∧ files (run self ops) !! (dir, name) = Some (json_dumps_job_id job_id).
Proof.
  induction ops as [|op ops IH] using rev_ind; [done |].
  rewrite run_snoc.
  assert (∀ d, submitted_with_runpath ops d ∨ submitted_with_runpath [op] d →
               submitted_with_runpath (ops ++ [op]) d) as Hsub.
  { unfold submitted_with_runpath.
    intros d [(i & e & a & n & b & Hin) | (i & e & a & n & b & Hin)];
      exists i, e, a, n, b; apply elem_of_app; [by left | by right]. }
  destruct (decide (files (step (run self ops) op).1 !! (dir, name)
                    = files (run self ops) !! (dir, name))) as [Heq|Hne].
  - rewrite Heq. intros (-> & Hdir & Hjson)%IH. auto.
  - intros _.
    destruct op as [iens executable args nm runpath bsub | iens bkill | bjobs];
      simpl in *.
    + apply submit_files in Hne as (d & job_id & -> & [= -> ->] & Hnum & ->).
      split_and!; [done | | by exists job_id].
      apply Hsub. right. exists iens, executable, args, nm, bsub. left.
    + destruct (kill_bookkeeping (run self ops) iens bkill)
        as [_ (_ & _ & _ & Hf)].
      by rewrite Hf in Hne.
    + by rewrite poll_cycle_files in Hne.
Qed.

Lemma only_the_metadata_file_is_written_witness :
  "lsf_info.json"%string = LSF_INFO_JSON_FILENAME
  ∧ submitted_with_runpath
      [Submit 0 "job.sh" [] "dummy" (Some "/run/0"%string)
         Scenario.accepted_as_1] "/run/0"
  ∧ ∃ job_id,
      is_job_number job_id
      ∧ files
          (run Scenario.fresh
             [Submit 0 "job.sh" [] "dummy" (Some "/run/0"%string)
                Scenario.accepted_as_1])
          !! ("/run/0", "lsf_info.json")%string
        = Some (json_dumps_job_id job_id).
Proof.
  apply (only_the_metadata_file_is_written Scenario.fresh
           [Submit 0 "job.sh" [] "dummy" (Some "/run/0"%string)
              Scenario.accepted_as_1]).
  vm_compute. discriminate.
Defined.

(** X9. Every event a run puts on the queue is about a realization that
    was tracked when the run began or that [submit] was called for during
    the run: the driver reports on nothing it was not given. *)
Theorem events_are_about_submitted_realizations (self : LsfDriver)
    (ops : list Op) (e : Event) :
  e ∈ emitted self (run self ops) →
  (∃ job_id state, _jobs self !! job_id = Some (event_iens e, state))
  ∨ submit_requested ops (event_iens e).
Proof.
  revert self; induction ops as [|op ops IH]; intros self.
  - rewrite emitted_refl. by intros ?%elem_of_nil.
  - rewrite emitted_run_cons. intros [Hin | Hin]%elem_of_app.
    + left. by apply (step_event_source self op).
    + destruct (IH _ Hin) as [(job_id & state & Hj) | Hsub].
      * destruct (step_jobs_lookup _ _ _ _ _ Hj) as [[s0 H] | [_ H]].
        -- left. eauto.
        -- right. apply submit_requested_cons. by left.
      * right. apply submit_requested_cons. by right.
Qed.

Lemma events_are_about_submitted_realizations_witness :
  (∃ job_id state,
     _jobs Scenario.fresh !! job_id = Some (event_iens (StartedEvent 0), state))
  ∨ submit_requested
      [Scenario.submit_0; Poll (Scenario.exits_0 "1 user RUN normal")]
      (event_iens (StartedEvent 0)).
Proof.
  apply (events_are_about_submitted_realizations Scenario.fresh
           [Scenario.submit_0; Poll (Scenario.exits_0 "1 user RUN normal")]).
  vm_compute. left.
Defined.

Lemma tracked_identifiers_are_numbers_witness : is_job_number "1".
Proof.
  apply (proj1 (tracked_identifiers_are_numbers None None None None
                  (λ _, None) [] ∅ [Scenario.submit_0]) "1"%string 0%Z PEND).
  vm_compute. reflexivity.
Defined.

(** ** A submission from its start to its end *)



(** ** What [kill] logs *)

Section kill_more.
Implicit Types (self : LsfDriver).

Lemma logged_since_app self self' records :
  logged self' = logged self ++ records → logged_since self self' = records.
Proof. intros H. unfold logged_since. by rewrite H, drop_app_length. Qed.

Lemma kill_logged self iens process :
  logged_since self (kill self iens process).1
  = match _iens2jobid self !! iens with
    | None => [Log ERROR (KillMissingJobid iens)]
    | Some job_id =>
        Log DEBUG (Killing iens job_id)
        :: (if decide (returncode process ≠ 0%Z) then
              [Log ERROR (KillReturncode (returncode process) (stderr process))]
            else if Re.match_terminated job_id (stdout process) then []
            else [Log ERROR (KillStdout (stdout process) (stderr process))])
    end.
Proof.
  unfold kill.
  destruct (_iens2jobid self !! iens) as [job_id|];
    [| by apply logged_since_app].
  destruct (decide (returncode process ≠ 0%Z));
    [apply logged_since_app; simpl; by rewrite <-app_assoc |].
  destruct (Re.match_terminated job_id (stdout process));
    apply logged_since_app; simpl; [done | by rewrite <-app_assoc].
Qed.
End kill_more.

(** X11. [kill] logs an error exactly when it could not see the job being
    terminated: when the realization has no job identifier, when [bkill]
    exits with a code other than 0, or when the output of [bkill] does not
    start with [Job <N> is being terminated] for the identifier [N] of the
    realization. *)
Theorem kill_logs_an_error_exactly_when (self : LsfDriver) (iens : Z)
    (process : Completed) :
  (∃ msg, Log ERROR msg ∈ logged_since self (kill self iens process).1)
  ↔ match _iens2jobid self !! iens with
    | None => True
    | Some job_id =>
        returncode process ≠ 0%Z
        ∨ ¬ ∃ rest,
              stdout process
              = "Job <" +:+ job_id +:+ "> is being terminated" +:+ rest
    end.
Proof.
  rewrite kill_logged.
  destruct (_iens2jobid self !! iens) as [job_id|].
  2:{ split; [done |]. intros _. eexists. left. }
  assert (Re.match_terminated job_id (stdout process) = true
          ↔ ∃ rest, stdout process
                    = "Job <" +:+ job_id +:+ "> is being terminated" +:+ rest)
    as Hmatch.
  { unfold Re.match_terminated. rewrite is_prefix_true.
    split; intros [r Hr]; exists r; by rewrite Hr, !append_assoc. }
  destruct (decide (returncode process ≠ 0%Z)) as [Hrc|Hrc].
  { split; [by left |]. intros _. eexists. right. left. }
  destruct (Re.match_terminated job_id (stdout process)) eqn:Hm.
  - split.
    + intros [msg Hin]. apply list_elem_of_singleton in Hin. done.
    + intros [? | Hno]; [done |]. destruct Hno. by apply Hmatch.
  - split.
    + intros _. right. intros Hex%Hmatch. done.
    + intros _. eexists. right. left.
Qed.

(** X12. After a [submit] that returned, [kill] of the same realization
    finds the identifier [bsub] printed: the first record it logs is about
    killing that job, and it does not report a missing identifier. *)
Theorem kill_after_submit_targets_the_job (self : LsfDriver) (iens : Z)
    (executable : string) (args : list string) (name : string)
    (runpath : option string) (bsub bkill : Completed) (self' : LsfDriver) :
  submit self iens executable args name runpath bsub = (self', None) →
  ∃ job_id records,
    Re.search_submitted (stdout bsub) = Some job_id
    ∧ logged_since self' (kill self' iens bkill).1
      = Log DEBUG (Killing iens job_id) :: records
    ∧ Log ERROR (KillMissingJobid iens) ∉ records.
Proof.
  intros Hsubmit.
  destruct (submit_returns _ _ _ _ _ _ _ _ Hsubmit) as [Hrc [job_id Hs]].
  destruct (submit_accepted self iens executable args name runpath bsub job_id
              Hrc Hs) as (s1 & Heq & _ & Hi & _).
  rewrite Hsubmit in Heq. injection Heq as <-.
  rewrite kill_logged, Hi, lookup_insert_eq.
  exists job_id. eexists. split_and!; [done | done |].
  destruct (decide (returncode bkill ≠ 0%Z)).
  { by intros [=]%list_elem_of_singleton. }
  destruct (Re.match_terminated job_id (stdout bkill)).
  - by intros ?%elem_of_nil.
  - by intros [=]%list_elem_of_singleton.
Qed.

Lemma kill_after_submit_targets_the_job_witness :
  ∃ job_id records,
    Re.search_submitted (stdout Scenario.accepted_as_1) = Some job_id
    ∧ logged_since Scenario.tracking_1
        (kill Scenario.tracking_1 0
           (Scenario.exits_0 "Job <1> is being terminated")).1
      = Log DEBUG (Killing 0 job_id) :: records
    ∧ Log ERROR (KillMissingJobid 0) ∉ records.
Proof.
  apply (kill_after_submit_targets_the_job Scenario.fresh 0 "job.sh" []
           "dummy" None Scenario.accepted_as_1
           (Scenario.exits_0 "Job <1> is being terminated")
           Scenario.tracking_1).
  vm_compute. reflexivity.
Defined.

(** ** Two jobs for one realization *)



Lemma poll_job_cases_same (self : LsfDriver) job_id job iens :
  _jobs self !! job_id = Some (iens, job_state job) →
  poll_job self job_id job = (self, None).
Proof. intros H. unfold poll_job. rewrite H. by rewrite decide_True. Qed.



(** ** The helper [poll] of the tests *)

Section test_poll.
Context {S : Type}.
Context (started : option (Z → S → S)) (finished : option (Z → Z → bool → S → S)).
Implicit Types (expected completed : gset Z) (events : list Event) (st : S).

Lemma finished_in_app events1 events2 :
  finished_in (events1 ++ events2)
  = finished_in events1 ∪ finished_in events2.
Proof.
  unfold finished_in. rewrite omap_app. apply list_to_set_app_L.
Qed.

Lemma finished_in_Finished iens rc ab events :
  finished_in (FinishedEvent iens rc ab :: events)
  = {[iens]} ∪ finished_in events.
Proof. done. Qed.

Lemma finished_in_Started iens events :
  finished_in (StartedEvent iens :: events) = finished_in events.
Proof. done. Qed.

Lemma finished_in_nil : finished_in [] = ∅.
Proof. done. Qed.

#[local] Arguments finished_in : simpl never.

Lemma union_swap (A B C : gset Z) : A ∪ (B ∪ C) = B ∪ A ∪ C.
Proof. by rewrite (assoc_L (∪)), (comm_L (∪) A B). Qed.

(** When the loop returns, it has taken a list of events that ends with a
    [FinishedEvent] off the queue, and [completed] has grown by the
    realizations that finished in it into [expected]. *)
Lemma poll_loop_Some expected completed events st st' completed' rest :
  TestUtils.poll_loop started finished expected completed events st
  = Some (st', completed', rest) →
  completed' = expected
  ∧ ∃ consumed iens rc ab,
      events = consumed ++ FinishedEvent iens rc ab :: rest
      ∧ completed'
        = finished_in (consumed ++ [FinishedEvent iens rc ab]) ∪ completed.
Proof.
  revert completed st; induction events as [|[i|i rc ab] events IH];
    intros completed st; simpl; [done | |].
  - intros (-> & consumed & i' & rc & ab & -> & Hc)%IH. split; [done |].
    exists (StartedEvent i :: consumed), i', rc, ab. split; [done |].
    by rewrite Hc.
  - destruct (decide ({[i]} ∪ completed = expected)) as [Heq|Hne].
    + intros [= <- <- <-]. split; [done |]. exists [], i, rc, ab.
      split; [done |]. simpl.
      by rewrite finished_in_Finished, finished_in_nil, (right_id_L ∅ (∪)).
    + intros (-> & consumed & i' & rc' & ab' & -> & Hc)%IH. split; [done |].
      exists (FinishedEvent i rc ab :: consumed), i', rc', ab'.
      split; [done |]. rewrite Hc. simpl. rewrite finished_in_Finished.
      apply union_swap.
Qed.

(** The loop cannot return once a realization outside [expected] has
    finished. *)
Lemma poll_loop_unexpected expected completed events st iens :
  iens ∈ completed → iens ∉ expected →
  TestUtils.poll_loop started finished expected completed events st = None.
Proof.
  intros Hin Hout.
  destruct (TestUtils.poll_loop started finished expected completed events st)
    as [[[st' completed'] rest]|] eqn:H; [| done].
  apply poll_loop_Some in H as (-> & consumed & i & rc & ab & _ & Hc).
  destruct Hout. rewrite Hc. apply elem_of_union. by right.
Qed.

Lemma poll_loop_app expected completed events1 events2 st :
  TestUtils.poll_loop started finished expected completed events1 st = None →
  ∃ st',
    TestUtils.poll_loop started finished expected completed
      (events1 ++ events2) st
    = TestUtils.poll_loop started finished expected
        (finished_in events1 ∪ completed) events2 st'.
Proof.
  revert completed st; induction events1 as [|[i|i rc ab] events1 IH];
    intros completed st; simpl.
  - intros _. exists st. by rewrite finished_in_nil, (left_id_L ∅ (∪)).
  - intros [st' ->]%IH. by exists st'.
  - destruct (decide ({[i]} ∪ completed = expected)); [done |].
    intros [st' ->]%IH. exists st'.
    by rewrite finished_in_Finished, union_swap.
Qed.
End test_poll.

(** X14. When the helper [poll] of the tests returns, it has taken off the
    queue a list of events that ends with a [FinishedEvent], and the
    realizations with a [FinishedEvent] in that list are exactly the
    expected ones; the events after it are left on the queue. *)
Theorem test_poll_returns_when_expected_finished {S : Type}
    (started : option (Z → S → S))
    (finished : option (Z → Z → bool → S → S))
    (expected : gset Z) (events : list Event) (st st' : S)
    (completed : gset Z) (rest : list Event) :
  TestUtils.poll started finished expected events st
  = Some (st', completed, rest) →
  completed = expected
  ∧ ∃ consumed iens rc ab,
      events = consumed ++ FinishedEvent iens rc ab :: rest
      ∧ finished_in (consumed ++ [FinishedEvent iens rc ab]) = expected.
Proof.
  unfold TestUtils.poll.
  intros (-> & consumed & iens & rc & ab & -> & Hc)%poll_loop_Some.
  split; [done |]. exists consumed, iens, rc, ab. split; [done |].
  by rewrite Hc, (right_id_L ∅ (∪)).
Qed.

Lemma test_poll_returns_when_expected_finished_witness :
  ({[0%Z]} : gset Z) = {[0%Z]}
  ∧ ∃ consumed iens rc ab,
      [StartedEvent 0; FinishedEvent 0 1 true; StartedEvent 1]
      = consumed ++ FinishedEvent iens rc ab :: [StartedEvent 1]
      ∧ finished_in (consumed ++ [FinishedEvent iens rc ab]) = {[0%Z]}.
Proof.
  apply (test_poll_returns_when_expected_finished (S := nat)
           (Some (λ _ n, S n)) None {[0%Z]}
           [StartedEvent 0; FinishedEvent 0 1 true; StartedEvent 1] O 1%nat).
  vm_compute. reflexivity.
Defined.

(** X15. The helper [poll] does not return once a realization that is not
    expected has finished while it was waiting: if the events up to a
    [FinishedEvent] of such a realization do not make it return, no event
    after it does. *)
Theorem test_poll_blocks_after_unexpected_finish {S : Type}
    (started : option (Z → S → S))
    (finished : option (Z → Z → bool → S → S))
    (expected : gset Z) (before after : list Event) (iens rc : Z) (ab : bool)
    (st : S) :
  iens ∉ expected →
  TestUtils.poll started finished expected before st = None →
  TestUtils.poll started finished expected
    (before ++ FinishedEvent iens rc ab :: after) st = None.
Proof.
  unfold TestUtils.poll. intros Hout Hbefore.
  destruct (poll_loop_app started finished expected ∅ before
              (FinishedEvent iens rc ab :: after) st Hbefore) as [st' ->].
  simpl. rewrite decide_False.
  - apply (poll_loop_unexpected _ _ _ _ _ _ iens); [| done].
    apply elem_of_union. left. by apply elem_of_singleton.
  - intros Heq. apply Hout. rewrite <-Heq.
    apply elem_of_union. left. by apply elem_of_singleton.
Qed.

Lemma test_poll_blocks_after_unexpected_finish_witness :
  TestUtils.poll (S := nat) None None {[0%Z]}
    ([StartedEvent 0] ++ FinishedEvent 1 0 false :: [FinishedEvent 0 0 false])
    O = None.
Proof.
  apply (test_poll_blocks_after_unexpected_finish (S := nat) None None
           {[0%Z]} [StartedEvent 0] [FinishedEvent 0 0 false] 1 0 false O).
  - vm_compute. intros H. discriminate H.
  - reflexivity.
Defined.

(** X16. With an empty set of expected realizations the helper [poll]
    never returns, whatever events the driver puts on the queue. *)
Theorem test_poll_never_returns_for_nothing_expected {S : Type}
    (started : option (Z → S → S))
    (finished : option (Z → Z → bool → S → S))
    (events : list Event) (st : S) :
  TestUtils.poll started finished ∅ events st = None.
Proof.
  destruct (TestUtils.poll started finished ∅ events st)
    as [[[st' completed] rest]|] eqn:H; [| done].
  unfold TestUtils.poll in H.
  apply poll_loop_Some in H as (-> & consumed & i & rc & ab & _ & Hc).
  assert (i ∈ (∅ : gset Z)) as Hin; [| by apply elem_of_empty in Hin].
  rewrite Hc, finished_in_app. apply elem_of_union. left.
  apply elem_of_union. right. unfold finished_in. simpl.
  apply elem_of_union. left. by apply elem_of_singleton.
Qed.

(** ** Repeated and changing reports *)

Section repeated.
Implicit Types (self : LsfDriver) (items : list (string * AnyJob)).

Lemma poll_job_settles self job_id job :
  (poll_job self job_id job).2 = None →
  settled (_jobs (poll_job self job_id job).1) (job_id, job).
Proof.
  unfold settled. simpl.
  poll_job_cases self job_id job; simpl; try done; intros _.
  all: try (left; by rewrite lookup_delete_eq).
  all: try (right; exists iens; by rewrite lookup_insert_eq).
  all: try (by left).
  right. exists iens. by rewrite Hjob, Hold.
Qed.

Lemma poll_jobs_settles items self :
  NoDup (PyDict.keys items) → (poll_jobs self items).2 = None →
  Forall (settled (_jobs (poll_jobs self items).1)) items.
Proof.
  unfold PyDict.keys.
  revert self; induction items as [|[job_id job] items IH]; intros self;
    csimpl; [by intros; apply Forall_nil_2 |].
  intros [Hnotin Hnodup]%NoDup_cons.
  pose proof (poll_job_settles self job_id job) as Hsettled.
  destruct (poll_job self job_id job) as [self1 [e|]]; simpl in *; [done |].
  intros Hnone. apply Forall_cons. split; [| by apply IH].
  unfold settled in *. simpl in *.
  rewrite (poll_jobs_not_reported items self1 job_id Hnotin).
  by apply Hsettled.
Qed.

Lemma poll_jobs_settled items self :
  Forall (settled (_jobs self)) items → poll_jobs self items = (self, None).
Proof.
  induction items as [|[job_id job] items IH]; [done |].
  intros [Hhead Htail]%Forall_cons. simpl.
  assert (poll_job self job_id job = (self, None)) as ->; [| by apply IH].
  destruct Hhead as [Hnone | [iens Hsame]]; simpl in *.
  - by apply poll_job_untracked.
  - by apply (poll_job_cases_same _ _ _ iens).
Qed.
End repeated.

(** X17. A running job that [bjobs] reports as pending again and then as
    running again is announced twice: the cycle with [PEND] puts no event
    and makes [PEND] the known state, and the cycle with [RUN] puts
    another [StartedEvent] for the realization. *)
Theorem requeued_job_is_started_again (self : LsfDriver) (job_id : string)
    (iens : Z) :
  _jobs self !! job_id = Some (iens, RUN) →
  (poll_stat self [(job_id, QueuedJob)]).2 = None
  ∧ emitted self (poll_stat self [(job_id, QueuedJob)]).1 = []
  ∧ _jobs (poll_stat self [(job_id, QueuedJob)]).1 !! job_id
    = Some (iens, PEND)
  ∧ emitted (poll_stat self [(job_id, QueuedJob)]).1
      (poll_stat (poll_stat self [(job_id, QueuedJob)]).1
         [(job_id, RunningJob)]).1
    = [StartedEvent iens].
Proof.
  intros Hj.
  assert (∀ s stat, (poll_stat s stat).2 = (poll_jobs s stat).2
                    ∧ _jobs (poll_stat s stat).1 = _jobs (poll_jobs s stat).1
                    ∧ event_queue (poll_stat s stat).1
                      = event_queue (poll_jobs s stat).1) as Hloop.
  { intros s stat. destruct (poll_stat_loop s stat) as [? (? & _ & ? & _)].
    done. }
  assert (poll_jobs self [(job_id, QueuedJob)]
          = (set_jobs self (<[job_id := (iens, PEND)]> (_jobs self)), None))
    as Hfirst.
  { simpl. unfold poll_job. rewrite Hj. by rewrite decide_False. }
  destruct (Hloop self [(job_id, QueuedJob)]) as (He1 & Hj1 & Hq1).
  rewrite Hfirst in He1, Hj1, Hq1. simpl in *.
  split_and!.
  - done.
  - apply emitted_app. by rewrite Hq1, app_nil_r.
  - by rewrite Hj1, lookup_insert_eq.
  - destruct (Hloop (poll_stat self [(job_id, QueuedJob)]).1
                [(job_id, RunningJob)]) as (_ & _ & Hq2).
    apply emitted_app. rewrite Hq2. simpl. unfold poll_job.
    rewrite Hj1, lookup_insert_eq. by rewrite decide_False.
Qed.

Lemma requeued_job_is_started_again_witness :
  emitted (poll_stat Scenario.running_1 [("1"%string, QueuedJob)]).1
    (poll_stat (poll_stat Scenario.running_1 [("1"%string, QueuedJob)]).1
       [("1"%string, RunningJob)]).1
  = [StartedEvent 0].
Proof.
  apply (requeued_job_is_started_again Scenario.running_1 "1" 0).
  vm_compute. reflexivity.
Defined.

(** X18. A cycle of [poll] that returned has nothing left to do with the
    same answer of [bjobs]: the next cycle with that answer returns too,
    puts no event and leaves the two maps as they are. *)
Theorem poll_is_idempotent (self : LsfDriver) (process : Completed) :
  (poll_cycle self process).2 = None →
  (poll_cycle (poll_cycle self process).1 process).2 = None
  ∧ same_bookkeeping (poll_cycle self process).1
      (poll_cycle (poll_cycle self process).1 process).1.
Proof.
  intros Hnone.
  assert (∀ s, _jobs s = ∅ → poll_cycle s process = (s, None)) as Hidle.
  { intros s Hs. unfold poll_cycle. by rewrite decide_True. }
  destruct (decide (_jobs self = ∅)) as [Hempty|Hne].
  { rewrite (Hidle self Hempty). simpl. by rewrite (Hidle self Hempty). }
  destruct (decide (returncode process = 0%Z ∨ stderr_is_utf8 process = true))
    as [Hdecode|Hundecodable].
  2:{ rewrite poll_cycle_undecodable in Hnone; [done | done | |].
      - intros ?. apply Hundecodable. by left.
      - destruct (stderr_is_utf8 process); [| done].
        destruct Hundecodable. by right. }
  destruct (poll_cycle_decoded self process Hne Hdecode)
    as (self1 & Hsame & Heq).
  rewrite Heq in Hnone |- *.
  destruct (_Stat (parse_bjobs (stdout process)).2) as [e|stat] eqn:Hstat;
    [done |].
  destruct (poll_stat_loop self1 stat) as [Hexn (Hj & Hi & Hq & Hf)].
  rewrite Hexn in Hnone.
  assert (Forall (settled (_jobs (poll_stat self1 stat).1)) stat) as Hsettled.
  { rewrite Hj. apply poll_jobs_settles; [| done].
    rewrite (_Stat_keys _ _ Hstat). apply parse_bjobs_keys. }
  destruct (decide (_jobs (poll_stat self1 stat).1 = ∅)) as [Hempty2|Hne2].
  { by rewrite (Hidle _ Hempty2). }
  destruct (poll_cycle_decoded (poll_stat self1 stat).1 process Hne2 Hdecode)
    as (self2 & (Hj2 & Hi2 & Hq2 & Hf2) & ->).
  rewrite Hstat.
  destruct (poll_stat_loop self2 stat) as [-> (Hj3 & Hi3 & Hq3 & Hf3)].
  rewrite (poll_jobs_settled stat self2) in * by (by rewrite Hj2).
  simpl in *. split; [done |]. unfold same_bookkeeping.
  by rewrite Hj3, Hi3, Hq3, Hf3.
Qed.

Lemma poll_is_idempotent_witness :
  (poll_cycle
     (poll_cycle Scenario.tracking_1 (Scenario.exits_0 "1 user RUN normal")).1
     (Scenario.exits_0 "1 user RUN normal")).2 = None
  ∧ same_bookkeeping
      (poll_cycle Scenario.tracking_1
         (Scenario.exits_0 "1 user RUN normal")).1
      (poll_cycle
         (poll_cycle Scenario.tracking_1
            (Scenario.exits_0 "1 user RUN normal")).1
         (Scenario.exits_0 "1 user RUN normal")).1.
Proof.
  apply (poll_is_idempotent Scenario.tracking_1
           (Scenario.exits_0 "1 user RUN normal")).
  vm_compute. reflexivity.
Defined.

(** ** The return code of [bjobs] *)

Section returncode.
Implicit Types (self : LsfDriver) (items : list (string * AnyJob)).

Lemma same_bookkeeping_refl self : same_bookkeeping self self.
Proof. by unfold same_bookkeeping. Qed.

Lemma same_bookkeeping_sym self self' :
  same_bookkeeping self self' → same_bookkeeping self' self.
Proof. unfold same_bookkeeping. by intros (-> & -> & -> & ->). Qed.

Lemma same_bookkeeping_trans self1 self2 self3 :
  same_bookkeeping self1 self2 → same_bookkeeping self2 self3 →
  same_bookkeeping self1 self3.
Proof.
  unfold same_bookkeeping.
  intros (H1 & H2 & H3 & H4) (-> & -> & -> & ->). done.
Qed.

(** What is logged has no part in what the loop does. *)
Lemma poll_job_same self self' job_id job :
  same_bookkeeping self self' →
  (poll_job self' job_id job).2 = (poll_job self job_id job).2
  ∧ same_bookkeeping (poll_job self job_id job).1 (poll_job self' job_id job).1.
Proof.
  intros (Hj & Hi & Hq & Hf). unfold poll_job. rewrite Hj.
  destruct (_jobs self !! job_id) as [[iens old_state]|];
    [| by unfold same_bookkeeping].
  destruct (decide (old_state = job_state job));
    [by unfold same_bookkeeping |].
  destruct job as [[]| |]; cbn [_iens2jobid set_jobs]; rewrite ?Hi;
    try destruct (_iens2jobid self !! iens);
    unfold same_bookkeeping; simpl; by rewrite ?Hj, ?Hi, ?Hq, ?Hf.
Qed.

Lemma poll_jobs_same items self self' :
  same_bookkeeping self self' →
  (poll_jobs self' items).2 = (poll_jobs self items).2
  ∧ same_bookkeeping (poll_jobs self items).1 (poll_jobs self' items).1.
Proof.
  revert self self'; induction items as [|[job_id job] items IH];
    intros self self' Hsame; simpl; [done |].
  destruct (poll_job_same self self' job_id job Hsame) as [Hexn Hsame1].
  destruct (poll_job self job_id job) as [s1 [e|]];
    destruct (poll_job self' job_id job) as [s1' [e'|]]; simpl in *;
    try done.
  by apply IH.
Qed.

Lemma poll_stat_same items self self' :
  same_bookkeeping self self' →
  (poll_stat self' items).2 = (poll_stat self items).2
  ∧ same_bookkeeping (poll_stat self items).1 (poll_stat self' items).1.
Proof.
  intros Hsame.
  destruct (poll_jobs_same items self self' Hsame) as [Hexn Hsame1].
  destruct (poll_stat_loop self items) as [-> Ha].
  destruct (poll_stat_loop self' items) as [-> Hb].
  split; [done |].
  eapply same_bookkeeping_trans; [| exact Hb].
  eapply same_bookkeeping_trans; [| exact Hsame1].
  by apply same_bookkeeping_sym.
Qed.
End returncode.

(** X19. The return code of [bjobs] only decides whether a warning is
    logged. When its error output can be decoded, a cycle does with an
    answer what it does with the same output and any other return code:
    it raises the same exception or none, and leaves the same maps, queue
    of events and files. *)
Theorem bjobs_returncode_only_warns (self : LsfDriver) (process : Completed)
    (code : Z) :
  stderr_is_utf8 process = true →
  (poll_cycle self (with_returncode process code)).2
  = (poll_cycle self process).2
  ∧ same_bookkeeping (poll_cycle self process).1
      (poll_cycle self (with_returncode process code)).1.
Proof.
  intros Hutf.
  destruct (decide (_jobs self = ∅)) as [Hempty|Hne].
  { unfold poll_cycle. rewrite !decide_True by done.
    split; [done | apply same_bookkeeping_refl]. }
  destruct (poll_cycle_decoded self process Hne (or_intror Hutf))
    as (self1 & Hsame1 & ->).
  destruct (poll_cycle_decoded self (with_returncode process code) Hne
              (or_intror Hutf)) as (self2 & Hsame2 & ->).
  simpl.
  assert (same_bookkeeping self1 self2) as Hsame.
  { eapply same_bookkeeping_trans; [| exact Hsame2].
    by apply same_bookkeeping_sym. }
  destruct (_Stat (parse_bjobs (stdout process)).2) as [e|stat]; [done |].
  by apply poll_stat_same.
Qed.

Lemma bjobs_returncode_only_warns_witness :
  (poll_cycle Scenario.tracking_1
     (with_returncode (Scenario.exits_0 "1 user RUN normal") 255)).2
  = (poll_cycle Scenario.tracking_1 (Scenario.exits_0 "1 user RUN normal")).2
  ∧ same_bookkeeping
      (poll_cycle Scenario.tracking_1
         (Scenario.exits_0 "1 user RUN normal")).1
      (poll_cycle Scenario.tracking_1
         (with_returncode (Scenario.exits_0 "1 user RUN normal") 255)).1.
Proof.
  apply (bjobs_returncode_only_warns Scenario.tracking_1
           (Scenario.exits_0 "1 user RUN normal") 255).
  reflexivity.
Defined.
